(** * go-waku: the static RLN group manager and the proof/signal helpers

    A shallow embedding of
      - [waku/v2/protocol/rln/group_manager/static/static.go]
        (package [static]: [StaticGroupManager] and its methods),
      - the helpers of package [rln] that sit next to it
        ([maxEpochGap], [toRLNSignal], [toRateLimitProof]),
      - package [filter] ([Notify], [selectPeer], [onRequest],
        [FilterListener], [Subscribe], [Unsubscribe]), and
      - the ENR address functions of package [node]
        ([selectMostExternalAddress], [getENRAddresses],
        [updateLocalNode], [setupENR] and what they call),
    followed by the properties the specification states about them and
    further properties read off the code.

    Logging ([zap]) is not modelled: it has no influence on any value
    returned or on any call made to the membership engine or the root
    tracker. *)

From Stdlib.Strings Require Import String Byte.
From Stdlib Require Import ZArith List Lia Bool.
Import ListNotations.
Open Scope Z_scope.

(* ================================================================== *)
(** ** Go values *)

(** A Go call either returns or panics (index out of range, nil
    dereference). *)
Inductive exec (A : Type) : Type :=
| Returns (a : A)
| Panics.
Arguments Returns {A} a.
Arguments Panics {A}.

(** A Go [error] value, identified by its message; [nil] is [None] of
    [option error].  [errors_New] is [errors.New]. *)
Inductive error : Type :=
| errors_New (text : string).

(** Go's [uint] and [int] on a 64-bit target. *)
Definition uint_ok (u : Z) : Prop := 0 <= u < 2 ^ 64.

(** The conversion [int(u)] of a [uint]: same bits, read as two's
    complement. *)
Definition to_int (u : Z) : Z :=
  let m := u mod 2 ^ 64 in
  if m <? 2 ^ 63 then m else m - 2 ^ 64.

(** The conversion [int64(c)]. *)
Definition to_int64 (c : Z) : Z :=
  let m := c mod 2 ^ 64 in
  if m <? 2 ^ 63 then m else m - 2 ^ 64.

(** The index expression [s[i]] on a slice: a run-time panic unless
    [0 <= i < len(s)]. *)
Definition slice_index {A : Type} (s : list A) (i : Z) : exec A :=
  if (i <? 0) || (Z.of_nat (length s) <=? i) then Panics
  else match nth_error s (Z.to_nat i) with
       | Some a => Returns a
       | None => Panics
       end.

(** [len(s)] of a Go slice is an [int]. *)
Definition slice_ok {A : Type} (s : list A) : Prop :=
  Z.of_nat (length s) < 2 ^ 63.

(** Equality of byte arrays ([==] on [[32]byte]). *)
Fixpoint bytes_eqb (a b : list byte) : bool :=
  match a, b with
  | [], [] => true
  | x :: a', y :: b' => Byte.eqb x y && bytes_eqb a' b'
  | _, _ => false
  end.

(* ================================================================== *)
(** ** Types of [go-zerokit-rln/rln] used by the manager *)

(** [rln.IDCommitment], a [[32]byte]. *)
Definition rln_IDCommitment : Type := list byte.

(** [rln.MembershipIndex], a [uint]. *)
Definition rln_MembershipIndex : Type := Z.

(** [rln.IdentityCredential].  The manager reads [IDCommitment] only;
    the secret fields travel with the value. *)
Record rln_IdentityCredential : Type := {
  IDTrapdoor : list byte;
  IDNullifier : list byte;
  IDSecretHash : list byte;
  IDCommitment : rln_IDCommitment
}.

(** The zero value [rln.IdentityCredential{}]. *)
Definition zero_IdentityCredential : rln_IdentityCredential :=
  {| IDTrapdoor := repeat x00 32%nat;
     IDNullifier := repeat x00 32%nat;
     IDSecretHash := repeat x00 32%nat;
     IDCommitment := repeat x00 32%nat |}.

(** Non-nil pointers to the two collaborators the node hands to the
    manager: [*rln.RLN] and [*group_manager.MerkleRootTracker].  A
    pointer-typed field or argument is an [option]; [None] is [nil]. *)
Definition RLN_ptr : Type := nat.
Definition MerkleRootTracker_ptr : Type := nat.

(* ================================================================== *)
(** ** Package [static] *)

Record StaticGroupManager : Type := {
  rln : option RLN_ptr;
  identityCredential : option rln_IdentityCredential;
  membershipIndex : option rln_MembershipIndex;
  group : list rln_IDCommitment;
  rootTracker : option MerkleRootTracker_ptr
}.

(** The assignment [gm.group = g]. *)
Definition set_group (gm : StaticGroupManager) (g : list rln_IDCommitment)
  : StaticGroupManager :=
  {| rln := rln gm;
     identityCredential := identityCredential gm;
     membershipIndex := membershipIndex gm;
     group := g;
     rootTracker := rootTracker gm |}.

Definition ErrMembershipMismatch : error :=
  errors_New "peer's IDCommitment does not match commitment in group"%string.

Definition ErrCredentialNotSetup : error :=
  errors_New "identity credential has not been setup"%string.

Definition ErrIndexNotSetup : error :=
  errors_New "membership index has not been setup"%string.

(** [NewStaticGroupManager(group, identityCredential, index, log)],
    returning Go's pair of a [StaticGroupManager] pointer and an [error]. *)
Definition NewStaticGroupManager
    (group : list rln_IDCommitment)
    (identityCredential : rln_IdentityCredential)
    (index : rln_MembershipIndex)
  : exec (option StaticGroupManager * option error) :=
  match slice_index group (to_int index) with
  | Panics => Panics
  | Returns member =>
      if negb (bytes_eqb (IDCommitment identityCredential) member)
      then Returns (None, Some ErrMembershipMismatch)
      else Returns
             (Some {| rln := None;
                      identityCredential := Some identityCredential;
                      membershipIndex := Some index;
                      group := group;
                      rootTracker := None |},
              None)
  end.

(** [gm.IdentityCredentials()], Go's pair [(rln.IdentityCredential, error)]. *)
Definition IdentityCredentials (gm : StaticGroupManager)
  : rln_IdentityCredential * option error :=
  match identityCredential gm with
  | None => (zero_IdentityCredential, Some ErrCredentialNotSetup)
  | Some c => (c, None)
  end.

(** [gm.MembershipIndex()], Go's pair [(rln.MembershipIndex, error)]. *)
Definition MembershipIndex (gm : StaticGroupManager)
  : rln_MembershipIndex * option error :=
  match membershipIndex gm with
  | None => (0, Some ErrIndexNotSetup)
  | Some i => (i, None)
  end.

(* ------------------------------------------------------------------ *)
(** *** Calls into the collaborators *)

(** A computation over a state [S] that returns or panics. *)
Definition M (S A : Type) : Type := S -> exec (A * S).

Definition ret {S A : Type} (a : A) : M S A :=
  fun s => Returns (a, s).

Definition bind {S A B : Type} (m : M S A) (k : A -> M S B) : M S B :=
  fun s =>
    match m s with
    | Returns (a, s') => k a s'
    | Panics => Panics
    end.

Notation "x <- m ;; k" := (bind m (fun x => k))
  (at level 61, m at next level, right associativity).

(** One call made to a collaborator, with the [error] it returned. *)
Inductive Event : Type :=
| EvInsertMember (r : RLN_ptr) (member : rln_IDCommitment) (err : option error)
| EvSync (t : MerkleRootTracker_ptr) (err : option error).

Section Collaborators.

(** The membership engine ([rln.RLN]) and the root tracker
    ([group_manager.MerkleRootTracker]) are defined outside this file.
    [Ext] is whatever state they keep; each method takes the receiver,
    transforms that state and returns its [error]. *)
Variable Ext : Type.
Variable rln_InsertMember :
  RLN_ptr -> rln_IDCommitment -> Ext -> Ext * option error.
Variable MerkleRootTracker_Sync :
  MerkleRootTracker_ptr -> Ext -> Ext * option error.

(** The collaborators' state and the calls made so far, oldest first. *)
Record World : Type := {
  ext : Ext;
  calls : list Event
}.

(** [r.InsertMember(member)]; a nil receiver is dereferenced. *)
Definition call_InsertMember (r : option RLN_ptr) (member : rln_IDCommitment)
  : M World (option error) :=
  fun w =>
    match r with
    | None => Panics
    | Some p =>
        let (x, err) := rln_InsertMember p member (ext w) in
        Returns (err, {| ext := x;
                         calls := calls w ++ [EvInsertMember p member err] |})
    end.

(** [t.Sync()]; a nil receiver is dereferenced. *)
Definition call_Sync (t : option MerkleRootTracker_ptr)
  : M World (option error) :=
  fun w =>
    match t with
    | None => Panics
    | Some p =>
        let (x, err) := MerkleRootTracker_Sync p (ext w) in
        Returns (err, {| ext := x; calls := calls w ++ [EvSync p err] |})
    end.

(** The loop of [Start]: [for _, member := range gm.group]. *)
Fixpoint Start_loop (rlnInstance : option RLN_ptr)
    (rootTracker : option MerkleRootTracker_ptr)
    (members : list rln_IDCommitment) : M World (option error) :=
  match members with
  | [] => ret None
  | member :: rest =>
      err <- call_InsertMember rlnInstance member ;;
      match err with
      | Some e => ret (Some e)
      | None =>
          err <- call_Sync rootTracker ;;
          match err with
          | Some e => ret (Some e)
          | None => Start_loop rlnInstance rootTracker rest
          end
      end
  end.

(** [gm.Start(ctx, rlnInstance, rootTracker)]; [ctx] is not used.  The
    receiver is a pointer: the manager after the call is returned next
    to the [error]. *)
Definition Start (gm : StaticGroupManager) (rlnInstance : option RLN_ptr)
    (rootTracker : option MerkleRootTracker_ptr)
  : M World (StaticGroupManager * option error) :=
  let gm1 := {| rln := rlnInstance;
                identityCredential := identityCredential gm;
                membershipIndex := membershipIndex gm;
                group := group gm;
                rootTracker := rootTracker |} in
  err <- call_Sync rootTracker ;;
  match err with
  | Some e => ret (gm1, Some e)
  | None =>
      err <- Start_loop rlnInstance rootTracker (group gm1) ;;
      match err with
      | Some e => ret (gm1, Some e)
      | None =>
          ret (set_group gm1 [], None)
      end
  end.

(** [gm.InsertMember(pubkey)]. *)
Definition InsertMember (gm : StaticGroupManager) (pubkey : rln_IDCommitment)
  : M World (option error) :=
  err <- call_InsertMember (rln gm) pubkey ;;
  match err with
  | Some e => ret (Some e)
  | None =>
      err <- call_Sync (rootTracker gm) ;;
      match err with
      | Some e => ret (Some e)
      | None => ret None
      end
  end.

(** [gm.Stop()]: does nothing. *)
Definition Stop (gm : StaticGroupManager) : M World unit :=
  ret tt.

End Collaborators.

Arguments ext {Ext} w.
Arguments calls {Ext} w.
Arguments call_InsertMember {Ext} rln_InsertMember r member _.
Arguments call_Sync {Ext} MerkleRootTracker_Sync t _.
Arguments Start_loop {Ext} rln_InsertMember MerkleRootTracker_Sync
  rlnInstance rootTracker members _.
Arguments Start {Ext} rln_InsertMember MerkleRootTracker_Sync
  gm rlnInstance rootTracker _.
Arguments InsertMember {Ext} rln_InsertMember MerkleRootTracker_Sync
  gm pubkey _.
Arguments Stop {Ext} gm _.

(* ================================================================== *)
(** ** Package [rln]: constants and message helpers *)

Inductive messageValidationResult : Type :=
| validationError
| validMessage
| invalidMessage
| spamMessage.

(** the maximum clock difference between peers in seconds *)
Definition maxClockGapSeconds : Z := 20.

(** acceptable roots for merkle root validation of incoming messages *)
Definition acceptableRootWindowSize : Z := 5.

(** [maxEpochGap = int64(maxClockGapSeconds / rln.EPOCH_UNIT_SECONDS)].
    [EPOCH_UNIT_SECONDS] is a constant of [go-zerokit-rln]; it is taken
    as a parameter.  Division of integer constants truncates. *)
Definition maxEpochGap (EPOCH_UNIT_SECONDS : Z) : Z :=
  to_int64 (Z.quot maxClockGapSeconds EPOCH_UNIT_SECONDS).

(** The protobuf messages of package [pb]. *)
Module pb.

Record RateLimitProof : Type := {
  Proof : list byte;
  MerkleRoot : list byte;
  Epoch : list byte;
  ShareX : list byte;
  ShareY : list byte;
  Nullifier : list byte;
  RlnIdentifier : list byte
}.

(** The Go field [RateLimitProof] is [RateLimitProof_] here, next to the
    type of the same name; a nil pointer is [None]. *)
Record WakuMessage : Type := {
  Payload : list byte;
  ContentTopic : string;
  RateLimitProof_ : option RateLimitProof
}.

End pb.

(** [rln.RateLimitProof] of [go-zerokit-rln]. *)
Record rln_RateLimitProof : Type := {
  Proof : list byte;
  MerkleRoot : list byte;
  Epoch : list byte;
  ShareX : list byte;
  ShareY : list byte;
  Nullifier : list byte;
  RLNIdentifier : list byte
}.

(** [toRLNSignal(wakuMessage)]: [append(Payload, []byte(ContentTopic)...)]. *)
Definition toRLNSignal (wakuMessage : option pb.WakuMessage) : list byte :=
  match wakuMessage with
  | None => []
  | Some m =>
      let contentTopicBytes := list_byte_of_string (pb.ContentTopic m) in
      pb.Payload m ++ contentTopicBytes
  end.

Definition exec_bind {A B : Type} (e : exec A) (k : A -> exec B) : exec B :=
  match e with
  | Returns a => k a
  | Panics => Panics
  end.

Notation "x <~ e ;; k" := (exec_bind e (fun x => k))
  (at level 61, e at next level, right associativity).

Section Conversions.

(** [rln.Bytes32] and [rln.Bytes128] of [go-zerokit-rln] turn a byte
    slice into a fixed-size array; they are taken as parameters, and
    may panic on a slice of the wrong length. *)
Variable Bytes32 : list byte -> exec (list byte).
Variable Bytes128 : list byte -> exec (list byte).

(** [toRateLimitProof(msg)]. *)
Definition toRateLimitProof (msg : option pb.WakuMessage)
  : exec (option rln_RateLimitProof) :=
  match msg with
  | None => Returns None
  | Some m =>
      match pb.RateLimitProof_ m with
      | None => Returns None
      | Some p =>
          proof <~ Bytes128 (pb.Proof p) ;;
          merkleRoot <~ Bytes32 (pb.MerkleRoot p) ;;
          epoch <~ Bytes32 (pb.Epoch p) ;;
          shareX <~ Bytes32 (pb.ShareX p) ;;
          shareY <~ Bytes32 (pb.ShareY p) ;;
          nullifier <~ Bytes32 (pb.Nullifier p) ;;
          rlnIdentifier <~ Bytes32 (pb.RlnIdentifier p) ;;
          Returns (Some {| Proof := proof;
                           MerkleRoot := merkleRoot;
                           Epoch := epoch;
                           ShareX := shareX;
                           ShareY := shareY;
                           Nullifier := nullifier;
                           RLNIdentifier := rlnIdentifier |})
      end
  end.

End Conversions.

(* ================================================================== *)
(** ** The message validation pipeline *)

(** One query the pipeline makes to a collaborator. *)
Inductive Query : Type :=
| QRootAcceptable (root : list byte)
| QVerify (proof : rln_RateLimitProof) (signal : list byte)
| QRateCheck (proof : rln_RateLimitProof).

(** The integer distance between two epochs. *)
Definition epoch_distance (a b : Z) : Z := Z.abs (a - b).

Section Validation.

Variable EPOCH_UNIT_SECONDS : Z.

(** The time slot an [Epoch] value of a proof stands for. *)
Variable epoch_number : list byte -> Z.

(** The root tracker's [is_acceptable], the engine's [verify] (a
    verdict or an engine error) and the engine's rate check. *)
Variable is_acceptable : list byte -> bool.
Variable verify : rln_RateLimitProof -> list byte -> bool + error.
Variable rate_exceeded : rln_RateLimitProof -> bool.

Definition ask_root (root : list byte) : M (list Query) bool :=
  fun log => Returns (is_acceptable root, log ++ [QRootAcceptable root]).

Definition ask_verify (proof : rln_RateLimitProof) (signal : list byte)
  : M (list Query) (bool + error) :=
  fun log => Returns (verify proof signal, log ++ [QVerify proof signal]).

Definition ask_rate (proof : rln_RateLimitProof) : M (list Query) bool :=
  fun log => Returns (rate_exceeded proof, log ++ [QRateCheck proof]).

(** Modelled from the spec: steps 3 to 6 of the validation pipeline
    (root acceptability, cryptographic verification, rate check); the
    function that runs them is not among the sources. *)
Definition validate_from_root (proof : rln_RateLimitProof)
    (signal : list byte) : M (list Query) messageValidationResult :=
  acceptable <- ask_root (MerkleRoot proof) ;;
  if negb acceptable then ret invalidMessage
  else
    verdict <- ask_verify proof signal ;;
    match verdict with
    | inr _ => ret validationError
    | inl false => ret invalidMessage
    | inl true =>
        spam <- ask_rate proof ;;
        if spam then ret spamMessage else ret validMessage
    end.

(** Modelled from the spec: the validation pipeline of a message that
    carries a proof (signal derivation, then the epoch tolerance step,
    then the remaining steps); the function that runs it is not among
    the sources.  The state is the list of queries made so far. *)
Definition validateMessage (msg : pb.WakuMessage)
    (proof : rln_RateLimitProof) (currentEpoch : Z)
  : M (list Query) messageValidationResult :=
  let signal := toRLNSignal (Some msg) in
  let gap := epoch_distance (epoch_number (Epoch proof)) currentEpoch in
  if maxEpochGap EPOCH_UNIT_SECONDS <? gap then ret invalidMessage
  else validate_from_root proof signal.

End Validation.

(** The number of cryptographic verifications in a list of queries. *)
Definition verify_count (log : list Query) : nat :=
  List.length (filter (fun q => match q with QVerify _ _ => true | _ => false end) log).

(* ================================================================== *)
(** ** Package [filter] *)

(** The protobuf messages of the filter protocol (package [pb]).
    Pointer-typed fields and slice elements are [option]s. *)
Module pb_filter.

(** [pb.FilterRequest_ContentFilter]. *)
Record ContentFilter : Type := {
  ContentTopic : string
}.

Record FilterRequest : Type := {
  Subscribe : bool;
  Topic : string;
  ContentFilters : list (option ContentFilter)
}.

Record MessagePush : Type := {
  Messages : list (option pb.WakuMessage)
}.

Record FilterRPC : Type := {
  RequestId : string;
  Request : option FilterRequest;
  Push : option MessagePush
}.

End pb_filter.

(** A channel of messages ([ContentFilterChan]), by identity. *)
Definition ContentFilterChan : Type := nat.

Record Filter : Type := {
  ContentFilters : list (option pb_filter.ContentFilter);
  Chan : ContentFilterChan
}.

(** [Filters], a [map[string]Filter]: its entries, in the order the
    [range] of one call visits them. *)
Definition Filters : Type := list (string * Filter).

Record Subscriber : Type := {
  peer : string;
  requestId : string;
  filter : pb_filter.FilterRequest
}.

Definition WakuFilterCodec : string := "/vac/waku/filter/2.0.0-beta1"%string.
Definition WakuFilterProtocolId : string := WakuFilterCodec.

(** A message sent on a channel; the send is taken to complete. *)
Definition ChanSend : Type := (ContentFilterChan * option pb.WakuMessage)%type.

Definition chan_send (ch : ContentFilterChan) (msg : option pb.WakuMessage)
  : M (list ChanSend) unit :=
  fun sends => Returns (tt, sends ++ [(ch, msg)]).

(** The inner loop of [Notify]: send once on the first content filter
    with the topic of the message, then [break]. *)
Fixpoint Notify_contentFilters (msg : option pb.WakuMessage)
    (ch : ContentFilterChan)
    (contentFilters : list (option pb_filter.ContentFilter))
  : M (list ChanSend) unit :=
  match contentFilters with
  | [] => ret tt
  | contentFilter :: rest =>
      match msg, contentFilter with
      | Some m, Some cf =>
          if String.eqb (pb.ContentTopic m) (pb_filter.ContentTopic cf)
          then chan_send ch msg
          else Notify_contentFilters msg ch rest
      | _, _ => fun _ => Panics
      end
  end.

(** [filters.Notify(msg, requestId)]. *)
Fixpoint Notify (filters : Filters) (msg : option pb.WakuMessage)
    (requestId : string) : M (list ChanSend) unit :=
  match filters with
  | [] => ret tt
  | (key, filter) :: rest =>
      u <- (if negb (String.eqb requestId "") && String.eqb requestId key
            then chan_send (Chan filter) msg
            else Notify_contentFilters msg (Chan filter) (ContentFilters filter)) ;;
      Notify rest msg requestId
  end.

(** [hex.EncodeToString]: two lower-case digits per byte. *)
Definition hex_digit (n : N) : Ascii.ascii :=
  match String.get (N.to_nat n) "0123456789abcdef"%string with
  | Some c => c
  | None => Ascii.zero
  end.

Fixpoint hex_EncodeToString (src : list byte) : string :=
  match src with
  | [] => EmptyString
  | b :: rest =>
      String (hex_digit (N.shiftr (Byte.to_N b) 4))
        (String (hex_digit (N.land (Byte.to_N b) 15))
           (hex_EncodeToString rest))
  end.

(** A stream opened to a peer. *)
Definition Conn : Type := nat.

(** One network call, with what it returned. *)
Inductive NetEvent : Type :=
| EvNewStream (p : string) (conn : option Conn) (err : option error)
| EvWriteMsg (conn : Conn) (rpc : pb_filter.FilterRPC) (err : option error).

(** A call of the push handler. *)
Definition HandlerCall : Type := (string * pb_filter.MessagePush)%type.

(** [WakuFilter], as far as the functions below use it: the
    subscribers, and whether [pushHandler] is a function ([true]) or
    nil. *)
Record WakuFilter : Type := {
  subscribers : list Subscriber;
  pushHandler : bool
}.

Section FilterHost.

(** The libp2p host, its peer store and the streams it opens are
    defined outside this file.  [Net] is their state; the two reads of
    the peer store do not change it. *)
Variable Net : Type.
Variable Peers : Net -> list string.
Variable SupportsProtocols : string -> string -> Net -> list string * option error.
Variable NewStream : string -> Net -> Net * (option Conn * option error).
Variable WriteMsg : Conn -> pb_filter.FilterRPC -> Net -> Net * option error.
(** [protocol.GenerateRequestId()], a source of fresh bytes. *)
Variable GenerateRequestId : Net -> Net * list byte.

(** The network state and the network calls made so far, oldest first. *)
Record Host : Type := {
  net : Net;
  traffic : list NetEvent
}.

Definition call_NewStream (p : string) : M Host (option Conn * option error) :=
  fun h =>
    let (n, r) := NewStream p (net h) in
    Returns (r, {| net := n;
                   traffic := traffic h ++ [EvNewStream p (fst r) (snd r)] |}).

(** [protoio.NewDelimitedWriter(conn).WriteMsg(rpc)]; a nil [conn] is
    dereferenced. *)
Definition call_WriteMsg (conn : option Conn) (rpc : pb_filter.FilterRPC)
  : M Host (option error) :=
  fun h =>
    match conn with
    | None => Panics
    | Some c =>
        let (n, err) := WriteMsg c rpc (net h) in
        Returns (err, {| net := n;
                         traffic := traffic h ++ [EvWriteMsg c rpc err] |})
    end.

Definition call_GenerateRequestId : M Host (list byte) :=
  fun h =>
    let (n, id) := GenerateRequestId (net h) in
    Returns (id, {| net := n; traffic := traffic h |}).

(** The loop of [selectPeer]: [None] when it returned nil on an error,
    otherwise the peers collected. *)
Fixpoint selectPeer_loop (n : Net) (candidates peers : list string)
  : option (list string) :=
  match candidates with
  | [] => Some peers
  | p :: rest =>
      let (protocols, err) := SupportsProtocols p WakuFilterProtocolId n in
      match err with
      | Some _ => None
      | None =>
          if (0 <? Z.of_nat (length protocols))
          then selectPeer_loop n rest (peers ++ [p])
          else selectPeer_loop n rest peers
      end
  end.

(** [wf.selectPeer()]: a pointer to the peer chosen, or nil. *)
Definition selectPeer (n : Net) : option string :=
  match selectPeer_loop n (Peers n) [] with
  | None => None
  | Some peers =>
      if (1 <=? Z.of_nat (length peers))
      then match peers with
           | p :: _ => Some p
           | [] => None
           end
      else None
  end.

(** [wf.Subscribe(ctx, request)], Go's pair [(string, error)]. *)
Definition Subscribe (request : pb_filter.FilterRequest)
  : M Host (string * option error) :=
  fun h =>
    match selectPeer (net h) with
    | Some p =>
        (r <- call_NewStream p ;;
         match fst r with
         | Some conn =>
             id <- call_GenerateRequestId ;;
             err <- call_WriteMsg (Some conn)
                      {| pb_filter.RequestId := hex_EncodeToString id;
                         pb_filter.Request := Some request;
                         pb_filter.Push := None |} ;;
             ret (string_of_list_byte id, None)
         | None => ret (EmptyString, snd r)
         end) h
    | None => Returns ((EmptyString, None), h)
    end.

(** [wf.Unsubscribe(ctx, request)]. *)
Definition Unsubscribe (request : pb_filter.FilterRequest) : M Host unit :=
  fun h =>
    match selectPeer (net h) with
    | Some p =>
        (r <- call_NewStream p ;;
         match fst r with
         | Some conn =>
             id <- call_GenerateRequestId ;;
             err <- call_WriteMsg (Some conn)
                      {| pb_filter.RequestId := hex_EncodeToString id;
                         pb_filter.Request := Some request;
                         pb_filter.Push := None |} ;;
             ret tt
         | None => ret tt
         end) h
    | None => Returns (tt, h)
    end.

(** The inner loop of [handle] in [FilterListener], over the content
    filters of one subscriber.  [Some r] when the function returned [r],
    [None] when the loop ran to its end. *)
Fixpoint handle_contentFilters (subscriber : Subscriber)
    (msg : option pb.WakuMessage)
    (contentFilters : list (option pb_filter.ContentFilter))
  : M Host (option (option error)) :=
  match contentFilters with
  | [] => ret None
  | f :: rest =>
      match msg, f with
      | Some m, Some cf =>
          if String.eqb (pb.ContentTopic m) (pb_filter.ContentTopic cf)
          then
            let pushRPC :=
              {| pb_filter.RequestId := requestId subscriber;
                 pb_filter.Request := None;
                 pb_filter.Push :=
                   Some {| pb_filter.Messages := [msg] |} |} in
            r <- call_NewStream (peer subscriber) ;;
            match snd r with
            | Some e => ret (Some (Some e))
            | None =>
                err <- call_WriteMsg (fst r) pushRPC ;;
                match err with
                | Some _ => ret (Some None)
                | None => handle_contentFilters subscriber msg rest
                end
            end
          else handle_contentFilters subscriber msg rest
      | _, _ => fun _ => Panics
      end
  end.

(** [handle(envelope)] of [FilterListener], on the message and the
    pubsub topic of the envelope. *)
Fixpoint handle (subs : list Subscriber) (msg : option pb.WakuMessage)
    (topic : string) : M Host (option error) :=
  match subs with
  | [] => ret None
  | subscriber :: rest =>
      if negb (String.eqb (pb_filter.Topic (filter subscriber)) "")
         && negb (String.eqb (pb_filter.Topic (filter subscriber)) topic)
      then handle rest msg topic
      else
        r <- handle_contentFilters subscriber msg
               (pb_filter.ContentFilters (filter subscriber)) ;;
        match r with
        | Some result => ret result
        | None => handle rest msg topic
        end
  end.

(** [wf.FilterListener()], on the envelopes received from [wf.MsgC]
    until it is closed; what [handle] returns is dropped. *)
Fixpoint FilterListener (wf : WakuFilter)
    (envelopes : list (option pb.WakuMessage * string)) : M Host unit :=
  match envelopes with
  | [] => ret tt
  | (msg, topic) :: rest =>
      r <- handle (subscribers wf) msg topic ;;
      FilterListener wf rest
  end.

End FilterHost.

Arguments net {Net} h.
Arguments traffic {Net} h.

(** [wf.onRequest(s)], on the request read from the stream [s] (the
    message decoded, and the error of [ReadMsg]) and the remote peer of
    [s].  The receiver is a pointer: the filter after the call is
    returned; the state is the list of calls of the push handler. *)
Definition onRequest (wf : WakuFilter) (filterRPCRequest : pb_filter.FilterRPC)
    (err : option error) (remotePeer : string)
  : M (list HandlerCall) WakuFilter :=
  match err with
  | Some _ => ret wf
  | None =>
      match pb_filter.Request filterRPCRequest with
      | Some request =>
          if pb_filter.Subscribe request
          then
            let subscriber :=
              {| peer := remotePeer;
                 requestId := pb_filter.RequestId filterRPCRequest;
                 filter := request |} in
            ret {| subscribers := subscribers wf ++ [subscriber];
                   pushHandler := pushHandler wf |}
          else ret wf
      | None =>
          match pb_filter.Push filterRPCRequest with
          | Some push =>
              if pushHandler wf
              then fun calls =>
                     Returns (wf, calls ++
                                    [(pb_filter.RequestId filterRPCRequest, push)])
              else fun _ => Panics
          | None => ret wf
          end
      end
  end.

(* ================================================================== *)
(** ** Package [node]: the addresses of the local ENR *)

(** [net.IP], a byte slice; nil is the empty list. *)
Definition net_IP : Type := list byte.

Definition is_nil {A : Type} (s : list A) : bool :=
  match s with
  | [] => true
  | _ :: _ => false
  end.

(** [net.TCPAddr]. *)
Record net_TCPAddr : Type := {
  IP : net_IP;
  Port : Z
}.

(** The protocol codes of [go-multiaddr] the functions ask for. *)
Inductive ma_Protocol : Type :=
| P_CIRCUIT | P_WS | P_WSS | P_DNS4 | P_IP4 | P_TCP | P_P2P.

(** The conversion [uint16(x)]. *)
Definition uint16 (x : Z) : Z := x mod 2 ^ 16.

(** The conversion [byte(x)]. *)
Definition byte_of_Z (x : Z) : byte :=
  match Byte.of_N (Z.to_N (x mod 256)) with
  | Some b => b
  | None => x00
  end.

(** [binary.BigEndian.PutUint16] into a fresh slice of two bytes. *)
Definition PutUint16_BigEndian (v : Z) : list byte :=
  [byte_of_Z (Z.shiftr v 8); byte_of_Z v].

(** [math.MaxUint16]. *)
Definition MaxUint16 : Z := 65535.

(** The entries of an ENR the functions build ([enr.WithEntry] for the
    two fields of package [utils], [enr.TCP], [enr.IPv4], [enr.IPv6],
    [enr.TCP6]). *)
Inductive enr_Entry : Type :=
| WithEntry_WakuENRField (wakuFlags : byte)
| WithEntry_MultiaddrENRField (fieldRaw : list byte)
| enr_TCP (port : Z)
| enr_IPv4 (ip : net_IP)
| enr_IPv6 (ip : net_IP)
| enr_TCP6 (port : Z).

(** The calls made on the [enode.LocalNode]. *)
Inductive LocalNodeOp : Type :=
| SetFallbackUDP (port : Z)
| SetFallbackIP (ip : net_IP)
| SetStaticIP (ip : net_IP)
| Set_ (e : enr_Entry)
| Delete (e : enr_Entry).

Definition localnode_do (op : LocalNodeOp) : M (list LocalNodeOp) unit :=
  fun ops => Returns (tt, ops ++ [op]).

Section ENR.

(** A [ma.Multiaddr] and the functions of [go-multiaddr], [net] and
    [strconv] used on it are defined outside this file.
    [ResolveIPAddr] gives the [String()] of the address resolved;
    [SplitFunc_circuit] is the first result of [ma.SplitFunc] with the
    test for a circuit component.  A value of [Multiaddr] is a non-nil
    multiaddress: a method called on a nil one panics in Go, and that
    panic has no counterpart here.  The properties below therefore
    claim that [updateLocalNode] or [setupENR] returns only on paths
    that end before the bytes of a multiaddress are read. *)
Variable Multiaddr : Type.
Variable ValueForProtocol : Multiaddr -> ma_Protocol -> string * option error.
Variable Bytes : Multiaddr -> list byte.
Variable NewMultiaddr : string -> Multiaddr * option error.
Variable Decapsulate : Multiaddr -> Multiaddr -> Multiaddr.
Variable SplitFunc_circuit : Multiaddr -> Multiaddr.
Variable ResolveIPAddr : string -> string -> string * option error.
Variable Atoi : string -> Z * option error.
Variable ParseIP : string -> net_IP.
Variable IsPrivate : net_IP -> bool.
Variable IsLoopback : net_IP -> bool.
Variable IsUnspecified : net_IP -> bool.
Variable To4 : net_IP -> net_IP.
Variable To16 : net_IP -> net_IP.

Definition isPrivate (addr : net_TCPAddr) : bool := IsPrivate (IP addr).

Definition isExternal (addr : net_TCPAddr) : bool :=
  negb (isPrivate addr) && negb (IsLoopback (IP addr))
  && negb (IsUnspecified (IP addr)).

Definition isLoopback (addr : net_TCPAddr) : bool := IsLoopback (IP addr).

Fixpoint filterIP_loop (ss : list net_TCPAddr) (fn : net_TCPAddr -> bool)
    (ret : list net_TCPAddr) : list net_TCPAddr :=
  match ss with
  | [] => ret
  | s :: rest =>
      if fn s then filterIP_loop rest fn (ret ++ [s])
      else filterIP_loop rest fn ret
  end.

(** [filterIP(ss, fn)]. *)
Definition filterIP (ss : list net_TCPAddr) (fn : net_TCPAddr -> bool)
  : list net_TCPAddr :=
  filterIP_loop ss fn [].

(** [extractIPAddressForENR(addr)].  Each [return] has exactly one of
    the address and the error nil: the result is one or the other. *)
Definition extractIPAddressForENR (addr : Multiaddr) : net_TCPAddr + error :=
  match snd (ValueForProtocol addr P_CIRCUIT) with
  | None =>
      inr (errors_New "can't use IP address from a p2p-circuit address"%string)
  | Some _ =>
  match snd (ValueForProtocol addr P_WS) with
  | None => inr (errors_New "can't use IP address from a ws address"%string)
  | Some _ =>
  match snd (ValueForProtocol addr P_WSS) with
  | None => inr (errors_New "can't use IP address from a wss address"%string)
  | Some _ =>
      let ipStr_or_err : string + error :=
        let (dns4, err) := ValueForProtocol addr P_DNS4 in
        match err with
        | Some _ =>
            let (ipStr, err) := ValueForProtocol addr P_IP4 in
            match err with
            | Some e => inr e
            | None => inl ipStr
            end
        | None =>
            let (netIP, err) := ResolveIPAddr "ip4" dns4 in
            match err with
            | Some e => inr e
            | None => inl netIP
            end
        end in
      match ipStr_or_err with
      | inr e => inr e
      | inl ipStr =>
          let (portStr, err) := ValueForProtocol addr P_TCP in
          match err with
          | Some e => inr e
          | None =>
              let (port, err) := Atoi portStr in
              match err with
              | Some e => inr e
              | None => inl {| IP := ParseIP ipStr; Port := port |}
              end
          end
      end
  end end end.

(** The first loop of [selectMostExternalAddress]. *)
Fixpoint extract_all (addresses : list Multiaddr) (ipAddrs : list net_TCPAddr)
  : list net_TCPAddr :=
  match addresses with
  | [] => ipAddrs
  | addr :: rest =>
      match extractIPAddressForENR addr with
      | inr _ => extract_all rest ipAddrs
      | inl ipAddr => extract_all rest (ipAddrs ++ [ipAddr])
      end
  end.

(** [selectMostExternalAddress(addresses)]; what it prints is left out. *)
Definition selectMostExternalAddress (addresses : list Multiaddr)
  : net_TCPAddr + error :=
  let ipAddrs := extract_all addresses [] in
  match filterIP ipAddrs isExternal with
  | a :: _ => inl a
  | [] =>
      match filterIP ipAddrs isPrivate with
      | a :: _ => inl a
      | [] =>
          match filterIP ipAddrs isLoopback with
          | a :: _ => inl a
          | [] => inr (errors_New "could not obtain ip address"%string)
          end
      end
  end.

(** [decapsulateP2P(addr)]. *)
Definition decapsulateP2P (addr : Multiaddr) : Multiaddr + error :=
  let (p2p, err) := ValueForProtocol addr P_P2P in
  match err with
  | Some e => inr e
  | None =>
      let (p2pAddr, err) := NewMultiaddr ("/p2p/" ++ p2p)%string in
      match err with
      | Some e => inr e
      | None => inl (Decapsulate addr p2pAddr)
      end
  end.

(** [decapsulateCircuitRelayAddr(addr)]. *)
Definition decapsulateCircuitRelayAddr (addr : Multiaddr) : Multiaddr + error :=
  match snd (ValueForProtocol addr P_CIRCUIT) with
  | Some _ => inr (errors_New "not a circuit relay address"%string)
  | None => inl (SplitFunc_circuit addr)
  end.

Fixpoint selectWSSListenAddresses_loop (addresses result : list Multiaddr)
  : list Multiaddr :=
  match addresses with
  | [] => result
  | addr :: rest =>
      match snd (ValueForProtocol addr P_CIRCUIT) with
      | None => selectWSSListenAddresses_loop rest result
      | Some _ =>
      match snd (ValueForProtocol addr P_DNS4) with
      | Some _ => selectWSSListenAddresses_loop rest result
      | None =>
      match snd (ValueForProtocol addr P_WSS) with
      | Some _ => selectWSSListenAddresses_loop rest result
      | None =>
          match decapsulateP2P addr with
          | inl a => selectWSSListenAddresses_loop rest (result ++ [a])
          | inr _ => selectWSSListenAddresses_loop rest result
          end
      end end end
  end.

(** [selectWSSListenAddresses(addresses)], Go's pair of the addresses
    and an [error]. *)
Definition selectWSSListenAddresses (addresses : list Multiaddr)
  : list Multiaddr * option error :=
  (selectWSSListenAddresses_loop addresses [], None).

Fixpoint selectCircuitRelayListenAddresses_loop
    (addresses result : list Multiaddr) : list Multiaddr :=
  match addresses with
  | [] => result
  | addr :: rest =>
      match decapsulateCircuitRelayAddr addr with
      | inr _ => selectCircuitRelayListenAddresses_loop rest result
      | inl a => selectCircuitRelayListenAddresses_loop rest (result ++ [a])
      end
  end.

(** [selectCircuitRelayListenAddresses(addresses)]. *)
Definition selectCircuitRelayListenAddresses (addresses : list Multiaddr)
  : list Multiaddr * option error :=
  (selectCircuitRelayListenAddresses_loop addresses [], None).

(** [w.getENRAddresses(addrs)]: the address and the multiaddresses, or
    the error (the other two results are then nil). *)
Definition getENRAddresses (addrs : list Multiaddr)
  : (net_TCPAddr * list Multiaddr) + error :=
  match selectMostExternalAddress addrs with
  | inr e => inr e
  | inl extAddr =>
      let (wssAddrs, err) := selectWSSListenAddresses addrs in
      match err with
      | Some e => inr e
      | None =>
          let (circuitAddrs, err) := selectCircuitRelayListenAddresses addrs in
          match err with
          | Some e => inr e
          | None => inl (extAddr, ([] ++ wssAddrs) ++ circuitAddrs)
          end
      end
  end.

(** The loop of [updateLocalNode] that builds the multiaddress field:
    for each address its length on two bytes, big end first, then its
    bytes. *)
Fixpoint fieldRaw_loop (multiaddrs : list Multiaddr) (fieldRaw : list byte)
  : list byte :=
  match multiaddrs with
  | [] => fieldRaw
  | addr :: rest =>
      let maRaw := Bytes addr in
      let maSize := PutUint16_BigEndian (uint16 (Z.of_nat (length maRaw))) in
      fieldRaw_loop rest ((fieldRaw ++ maSize) ++ maRaw)
  end.

(** [w.updateLocalNode(localnode, multiaddrs, ipAddr, udpPort,
    wakuFlags, advertiseAddr, shouldAutoUpdate, log)].  The state is the
    list of calls made on [localnode]; [ipAddr] and [advertiseAddr] are
    pointers. *)
Definition updateLocalNode (multiaddrs : list Multiaddr)
    (ipAddr : option net_TCPAddr) (udpPort : Z) (wakuFlags : byte)
    (advertiseAddr : option net_IP) (shouldAutoUpdate : bool)
  : M (list LocalNodeOp) (option error) :=
  u <- localnode_do (SetFallbackUDP (to_int udpPort)) ;;
  u <- localnode_do (Set_ (WithEntry_WakuENRField wakuFlags)) ;;
  u <- localnode_do (SetFallbackIP [x7f; x00; x00; x01]) ;;
  if MaxUint16 <? udpPort
  then ret (Some (errors_New "invalid udp port number"%string))
  else
    u <- match advertiseAddr with
         | Some advertised =>
             u <- localnode_do (SetStaticIP advertised) ;;
             match ipAddr with
             | None => fun _ => Panics
             | Some a => localnode_do (Set_ (enr_TCP (uint16 (Port a))))
             end
         | None =>
             match ipAddr with
             | None => fun _ => Panics
             | Some a =>
                 if negb shouldAutoUpdate
                 then
                   u <- localnode_do (SetStaticIP (IP a)) ;;
                   localnode_do (Set_ (enr_TCP (uint16 (Port a))))
                 else
                   let ip4 := To4 (IP a) in
                   let ip6 := To16 (IP a) in
                   u <- (if negb (is_nil ip4) && negb (IsUnspecified ip4)
                         then
                           u <- localnode_do (Set_ (enr_IPv4 ip4)) ;;
                           localnode_do (Set_ (enr_TCP (uint16 (Port a))))
                         else
                           u <- localnode_do (Delete (enr_IPv4 [])) ;;
                           localnode_do (Delete (enr_TCP 0))) ;;
                   if negb (is_nil ip6) && negb (IsUnspecified ip6)
                   then
                     u <- localnode_do (Set_ (enr_IPv6 ip6)) ;;
                     localnode_do (Set_ (enr_TCP6 (uint16 (Port a))))
                   else
                     u <- localnode_do (Delete (enr_IPv6 [])) ;;
                     localnode_do (Delete (enr_TCP6 0))
             end
         end ;;
    let fieldRaw := fieldRaw_loop multiaddrs [] in
    u <- (if negb (Z.of_nat (length fieldRaw) =? 0)
          then localnode_do (Set_ (WithEntry_MultiaddrENRField fieldRaw))
          else ret tt) ;;
    ret None.

(** [w.setupENR(ctx, addrs)], with the options of the node it reads. *)
Definition setupENR (addrs : list Multiaddr) (udpPort : Z) (wakuFlag : byte)
    (advertiseAddr : option net_IP) (discV5autoUpdate : bool)
  : M (list LocalNodeOp) (option error) :=
  match getENRAddresses addrs with
  | inr e => ret (Some e)
  | inl (ipAddr, multiaddresses) =>
      err <- updateLocalNode multiaddresses (Some ipAddr) udpPort wakuFlag
               advertiseAddr discV5autoUpdate ;;
      match err with
      | Some e => ret (Some e)
      | None => ret None
      end
  end.

End ENR.

(* ================================================================== *)
(** ** A bench engine and tracker

    A bounded tree and a root window to run the manager on: inserting
    fails once the tree holds [bench_capacity] leaves, and [Sync] fails
    once its budget is used up.  The number of leaves stands for the
    root. *)

Record Bench : Type := {
  leaves : list rln_IDCommitment;
  roots : list nat;
  sync_budget : nat
}.

Definition bench_capacity : nat := 3.

Definition bench_InsertMember (_ : RLN_ptr) (member : rln_IDCommitment)
    (b : Bench) : Bench * option error :=
  if Nat.ltb (List.length (leaves b)) bench_capacity
  then ({| leaves := leaves b ++ [member];
           roots := roots b;
           sync_budget := sync_budget b |}, None)
  else (b, Some (errors_New "tree is full"%string)).

Definition bench_push (rs : list nat) (r : nat) : list nat :=
  if Nat.eqb (last rs (S r)) r then rs
  else skipn (List.length rs + 1 - Z.to_nat acceptableRootWindowSize) (rs ++ [r]).

Definition bench_Sync (_ : MerkleRootTracker_ptr) (b : Bench)
  : Bench * option error :=
  match sync_budget b with
  | O => (b, Some (errors_New "root not available"%string))
  | S n => ({| leaves := leaves b;
               roots := bench_push (roots b) (List.length (leaves b));
               sync_budget := n |}, None)
  end.

Definition bench_start (budget : nat) : World Bench :=
  {| ext := {| leaves := []; roots := []; sync_budget := budget |};
     calls := [] |}.

(** Three commitments and a credential for the second one. *)
Definition commitment_A : rln_IDCommitment := repeat x01 32%nat.
Definition commitment_B : rln_IDCommitment := repeat x02 32%nat.
Definition commitment_C : rln_IDCommitment := repeat x03 32%nat.

Definition credential_B : rln_IdentityCredential :=
  {| IDTrapdoor := repeat x0a 32%nat;
     IDNullifier := repeat x0b 32%nat;
     IDSecretHash := repeat x0c 32%nat;
     IDCommitment := commitment_B |}.

Definition bench_group : list rln_IDCommitment :=
  [commitment_A; commitment_B; commitment_C].

(** The manager the constructor returns for [credential_B] at index 1. *)
Definition bench_manager : StaticGroupManager :=
  {| rln := None;
     identityCredential := Some credential_B;
     membershipIndex := Some 1;
     group := bench_group;
     rootTracker := None |}.

(** A message with a proof, and the proof as extracted from it; the
    first byte of the epoch is its number. *)
Definition bench_epoch_number (e : list byte) : Z :=
  match e with
  | [] => 0
  | b :: _ => Z.of_N (Byte.to_N b)
  end.

Definition bench_proof (epoch : byte) : rln_RateLimitProof :=
  {| Proof := repeat x00 128%nat;
     MerkleRoot := repeat x03 32%nat;
     Epoch := epoch :: repeat x00 31%nat;
     ShareX := repeat x00 32%nat;
     ShareY := repeat x00 32%nat;
     Nullifier := repeat x00 32%nat;
     RLNIdentifier := repeat x00 32%nat |}.

Definition bench_message : pb.WakuMessage :=
  {| pb.Payload := [x68; x69];
     pb.ContentTopic := "/t"%string;
     pb.RateLimitProof_ := None |}.

(** A bench network: the peers known with the protocols they speak,
    the peers that cannot be dialled, the number of the next stream and
    the number of writes that will still succeed. *)
Record BenchNet : Type := {
  known : list (string * list string);
  unreachable : list string;
  next_conn : nat;
  write_budget : nat
}.

Definition bench_Peers (n : BenchNet) : list string := map fst (known n).

Definition bench_SupportsProtocols (p proto : string) (n : BenchNet)
  : list string * option error :=
  match find (fun e => String.eqb (fst e) p) (known n) with
  | Some e => (List.filter (String.eqb proto) (snd e), None)
  | None => ([], Some (errors_New "peer not found"%string))
  end.

Definition bench_NewStream (p : string) (n : BenchNet)
  : BenchNet * (option Conn * option error) :=
  if existsb (String.eqb p) (unreachable n)
  then (n, (None, Some (errors_New "dial failed"%string)))
  else ({| known := known n;
           unreachable := unreachable n;
           next_conn := S (next_conn n);
           write_budget := write_budget n |},
        (Some (next_conn n), None)).

Definition bench_WriteMsg (c : Conn) (rpc : pb_filter.FilterRPC) (n : BenchNet)
  : BenchNet * option error :=
  match write_budget n with
  | O => (n, Some (errors_New "stream reset"%string))
  | S k => ({| known := known n;
               unreachable := unreachable n;
               next_conn := next_conn n;
               write_budget := k |}, None)
  end.

Definition bench_GenerateRequestId (n : BenchNet) : BenchNet * list byte :=
  (n, [x01; xab]).

Definition bench_host (budget : nat) : Host BenchNet :=
  {| net := {| known := [("alice"%string, []);
                         ("bob"%string, [WakuFilterCodec]);
                         ("carol"%string, [WakuFilterCodec])];
               unreachable := [];
               next_conn := 0;
               write_budget := budget |};
     traffic := [] |}.

Definition bench_topic (t : string) : option pb_filter.ContentFilter :=
  Some {| pb_filter.ContentTopic := t |}.

(** Three subscribers: one lists the topic of [bench_message] twice,
    one wants another pubsub topic, one lists it after another topic. *)
Definition bench_subscribers : list Subscriber :=
  [ {| peer := "bob"%string; requestId := "r1"%string;
       filter := {| pb_filter.Subscribe := true;
                    pb_filter.Topic := ""%string;
                    pb_filter.ContentFilters :=
                      [bench_topic "/t"; bench_topic "/t"] |} |};
    {| peer := "carol"%string; requestId := "r2"%string;
       filter := {| pb_filter.Subscribe := true;
                    pb_filter.Topic := "other"%string;
                    pb_filter.ContentFilters := [bench_topic "/t"] |} |};
    {| peer := "carol"%string; requestId := "r3"%string;
       filter := {| pb_filter.Subscribe := true;
                    pb_filter.Topic := "pubsub"%string;
                    pb_filter.ContentFilters :=
                      [bench_topic "/u"; bench_topic "/t"] |} |} ].

Definition bench_filters : Filters :=
  [ ("req1"%string,
     {| ContentFilters := [bench_topic "/t"; bench_topic "/t"]; Chan := 1%nat |});
    ("req2"%string, {| ContentFilters := []; Chan := 2%nat |});
    ("req3"%string, {| ContentFilters := [bench_topic "/u"]; Chan := 3%nat |}) ].

Definition bench_request : pb_filter.FilterRequest :=
  {| pb_filter.Subscribe := true;
     pb_filter.Topic := "pubsub"%string;
     pb_filter.ContentFilters := [bench_topic "/t"] |}.

(** Conversions to a fixed size that pad on the left and panic on a
    slice that is too long, and a proof as it comes in a message. *)
Definition bench_Bytes (size : nat) (b : list byte) : exec (list byte) :=
  if Nat.leb (length b) size
  then Returns (repeat x00 (size - length b) ++ b)
  else Panics.

Definition bench_pb_proof (proof_len : nat) : pb.RateLimitProof :=
  {| pb.Proof := repeat x01 proof_len;
     pb.MerkleRoot := repeat x03 32%nat;
     pb.Epoch := [x07];
     pb.ShareX := repeat x04 32%nat;
     pb.ShareY := repeat x05 32%nat;
     pb.Nullifier := repeat x06 32%nat;
     pb.RlnIdentifier := [] |}.

Definition bench_message_with (proof_len : nat) : pb.WakuMessage :=
  {| pb.Payload := [x68; x69];
     pb.ContentTopic := "/t"%string;
     pb.RateLimitProof_ := Some (bench_pb_proof proof_len) |}.

(** Bench multiaddresses: the components as pairs of a protocol and a
    value, with stand-ins for the library functions used on them. *)
Definition BenchAddr : Type := list (ma_Protocol * string).

Definition protocol_eqb (a b : ma_Protocol) : bool :=
  match a, b with
  | P_CIRCUIT, P_CIRCUIT | P_WS, P_WS | P_WSS, P_WSS | P_DNS4, P_DNS4
  | P_IP4, P_IP4 | P_TCP, P_TCP | P_P2P, P_P2P => true
  | _, _ => false
  end.

Definition bench_ValueForProtocol (addr : BenchAddr) (code : ma_Protocol)
  : string * option error :=
  match find (fun c => protocol_eqb (fst c) code) addr with
  | Some c => (snd c, None)
  | None => (EmptyString, Some (errors_New "protocol not found in multiaddr"%string))
  end.

Definition bench_addr_Bytes (addr : BenchAddr) : list byte :=
  flat_map (fun c => list_byte_of_string (snd c)) addr.

Definition bench_NewMultiaddr (s : string) : BenchAddr * option error :=
  ([(P_P2P, s)], None).

Definition bench_Decapsulate (addr part : BenchAddr) : BenchAddr :=
  List.filter (fun c => negb (protocol_eqb (fst c) P_P2P)) addr.

Fixpoint bench_SplitFunc_circuit (addr : BenchAddr) : BenchAddr :=
  match addr with
  | [] => []
  | c :: rest =>
      if protocol_eqb (fst c) P_CIRCUIT then []
      else c :: bench_SplitFunc_circuit rest
  end.

Definition bench_ResolveIPAddr (network name : string) : string * option error :=
  if String.eqb name "node.example"
  then ("10.0.0.7"%string, None)
  else (EmptyString, Some (errors_New "no such host"%string)).

Fixpoint bench_digits (s : string) (acc : Z) : option Z :=
  match s with
  | EmptyString => Some acc
  | String c rest =>
      let d := Z.of_N (Ascii.N_of_ascii c) - 48 in
      if (0 <=? d) && (d <=? 9) then bench_digits rest (10 * acc + d)
      else None
  end.

Definition bench_Atoi (s : string) : Z * option error :=
  match s with
  | EmptyString => (0, Some (errors_New "invalid syntax"%string))
  | _ =>
      match bench_digits s 0 with
      | Some n => (n, None)
      | None => (0, Some (errors_New "invalid syntax"%string))
      end
  end.

Definition bench_ParseIP (s : string) : net_IP :=
  if String.eqb s "8.8.8.8" then [x08; x08; x08; x08]
  else if String.eqb s "10.0.0.7" then [x0a; x00; x00; x07]
  else if String.eqb s "127.0.0.1" then [x7f; x00; x00; x01]
  else if String.eqb s "0.0.0.0" then [x00; x00; x00; x00]
  else [].

Definition bench_IsPrivate (ip : net_IP) : bool :=
  match ip with
  | x0a :: _ => true
  | _ => false
  end.

Definition bench_IsLoopback (ip : net_IP) : bool :=
  match ip with
  | x7f :: _ => true
  | _ => false
  end.

Definition bench_IsUnspecified (ip : net_IP) : bool :=
  match ip with
  | [x00; x00; x00; x00] => true
  | _ => false
  end.

Definition bench_To4 (ip : net_IP) : net_IP :=
  if Nat.eqb (length ip) 4 then ip else [].

Definition bench_To16 (ip : net_IP) : net_IP :=
  if Nat.eqb (length ip) 4
  then repeat x00 10%nat ++ [xff; xff] ++ ip
  else [].

Definition bench_addr_loopback : BenchAddr :=
  [(P_IP4, "127.0.0.1"%string); (P_TCP, "60000"%string)].
Definition bench_addr_private : BenchAddr :=
  [(P_DNS4, "node.example"%string); (P_IP4, "8.8.8.8"%string);
   (P_TCP, "60001"%string)].
Definition bench_addr_external : BenchAddr :=
  [(P_IP4, "8.8.8.8"%string); (P_TCP, "60002"%string)].
Definition bench_addr_wss : BenchAddr :=
  [(P_DNS4, "node.example"%string); (P_TCP, "443"%string);
   (P_WSS, ""%string); (P_P2P, "peerA"%string)].
Definition bench_addr_circuit : BenchAddr :=
  [(P_IP4, "8.8.8.8"%string); (P_TCP, "60003"%string);
   (P_P2P, "relay"%string); (P_CIRCUIT, ""%string); (P_P2P, "peerA"%string)].

Definition bench_addrs : list BenchAddr :=
  [bench_addr_loopback; bench_addr_wss; bench_addr_private;
   bench_addr_circuit; bench_addr_external].

(* ================================================================== *)
(** ** Reading a list of calls *)

(** The calls of [n] full rounds of the start-up loop: for each member
    an insert and a sync, none of which failed. *)
Definition ok_rounds (r : RLN_ptr) (t : MerkleRootTracker_ptr)
    (members : list rln_IDCommitment) : list Event :=
  flat_map (fun m => [EvInsertMember r m None; EvSync t None]) members.

(** The members whose insert succeeded, in call order. *)
Fixpoint inserted (evs : list Event) : list rln_IDCommitment :=
  match evs with
  | [] => []
  | EvInsertMember _ m None :: rest => m :: inserted rest
  | _ :: rest => inserted rest
  end.

(** How many inserts and how many syncs were called. *)
Fixpoint insert_calls (evs : list Event) : nat :=
  match evs with
  | [] => 0
  | EvInsertMember _ _ _ :: rest => S (insert_calls rest)
  | EvSync _ _ :: rest => insert_calls rest
  end.

Fixpoint sync_calls (evs : list Event) : nat :=
  match evs with
  | [] => 0
  | EvInsertMember _ _ _ :: rest => sync_calls rest
  | EvSync _ _ :: rest => S (sync_calls rest)
  end.

(** The calls [evs] were made one after the other on the collaborators
    [ins] and [sync], from the state [x]: each call returned the error
    recorded for it and left the state the next call started from, and
    the last one left the state [x']. *)
Fixpoint performed {Ext : Type}
    (ins : RLN_ptr -> rln_IDCommitment -> Ext -> Ext * option error)
    (sync : MerkleRootTracker_ptr -> Ext -> Ext * option error)
    (evs : list Event) (x x' : Ext) : Prop :=
  match evs with
  | [] => x' = x
  | EvInsertMember r member err :: rest =>
      exists x1, ins r member x = (x1, err) /\ performed ins sync rest x1 x'
  | EvSync t err :: rest =>
      exists x1, sync t x = (x1, err) /\ performed ins sync rest x1 x'
  end.

(* ================================================================== *)
(** ** Reading the filter functions *)

(** Some content filter of [contentFilters] has the topic of [m]. *)
Definition topic_listed (m : pb.WakuMessage)
    (contentFilters : list (option pb_filter.ContentFilter)) : bool :=
  existsb (fun f => match f with
                    | Some cf => String.eqb (pb.ContentTopic m)
                                   (pb_filter.ContentTopic cf)
                    | None => false
                    end) contentFilters.

(** The request id is not empty and is the key of the entry. *)
Definition id_selects (requestId key : string) : bool :=
  negb (String.eqb requestId "") && String.eqb requestId key.

(** The entry of a [Filters] map is to receive the message [m]. *)
Definition notified (requestId : string) (m : pb.WakuMessage)
    (entry : string * Filter) : bool :=
  id_selects requestId (fst entry)
  || topic_listed m (ContentFilters (snd entry)).

(** The pushes a message [m] on pubsub topic [topic] calls for: for
    each subscriber whose filter has no pubsub topic or this one, one
    push per content filter with the topic of [m]. *)
Definition pushes_for (subs : list Subscriber) (m : pb.WakuMessage)
    (topic : string) : list (string * pb_filter.FilterRPC) :=
  flat_map
    (fun s =>
       if negb (String.eqb (pb_filter.Topic (filter s)) "")
          && negb (String.eqb (pb_filter.Topic (filter s)) topic)
       then []
       else
         map (fun _ =>
                (peer s,
                 {| pb_filter.RequestId := requestId s;
                    pb_filter.Request := None;
                    pb_filter.Push :=
                      Some {| pb_filter.Messages := [Some m] |} |}))
             (List.filter
                (fun f => match f with
                          | Some cf => String.eqb (pb.ContentTopic m)
                                         (pb_filter.ContentTopic cf)
                          | None => false
                          end)
                (pb_filter.ContentFilters (filter s))))
    subs.

(** The peer store fails on the peer [p]. *)
Definition query_fails {Net : Type}
    (SupportsProtocols : string -> string -> Net -> list string * option error)
    (n : Net) (p : string) : bool :=
  match snd (SupportsProtocols p WakuFilterProtocolId n) with
  | Some _ => true
  | None => false
  end.

(** The peer store lists a protocol for the peer [p]. *)
Definition query_supports {Net : Type}
    (SupportsProtocols : string -> string -> Net -> list string * option error)
    (n : Net) (p : string) : bool :=
  negb (Nat.eqb (length (fst (SupportsProtocols p WakuFilterProtocolId n))) 0).

(** One address in the multiaddress field of the ENR: its length on
    two bytes, then its bytes. *)
Definition field_entry {Multiaddr : Type} (Bytes : Multiaddr -> list byte)
    (addr : Multiaddr) : list byte :=
  PutUint16_BigEndian (uint16 (Z.of_nat (length (Bytes addr)))) ++ Bytes addr.

(** A network call returned an error. *)
Definition net_failed (ev : NetEvent) : bool :=
  match ev with
  | EvNewStream _ _ (Some _) => true
  | EvWriteMsg _ _ (Some _) => true
  | _ => false
  end.

Section Pushes.

Variable Net : Type.
Variable NewStream : string -> Net -> Net * (option Conn * option error).
Variable WriteMsg : Conn -> pb_filter.FilterRPC -> Net -> Net * option error.

(** Deliver pushes one after the other: open a stream, write the
    message; stop with the error when the stream cannot be opened, and
    stop without an error when the write fails. *)
Fixpoint deliver (pushes : list (string * pb_filter.FilterRPC))
  : M (Host Net) (option error) :=
  match pushes with
  | [] => ret None
  | (p, rpc) :: rest =>
      r <- call_NewStream Net NewStream p ;;
      match snd r with
      | Some e => ret (Some e)
      | None =>
          err <- call_WriteMsg Net WriteMsg (fst r) rpc ;;
          match err with
          | Some _ => ret None
          | None => deliver rest
          end
      end
  end.

End Pushes.

(* ================================================================== *)
(** ** Properties: Go values *)

Lemma bytes_eqb_refl (a : list byte) : bytes_eqb a a = true.
Proof.
  induction a as [|x a IH]; simpl; [reflexivity|].
  rewrite IH, (Byte.byte_dec_lb (eq_refl x)). reflexivity.
Qed.

Lemma bytes_eqb_eq (a b : list byte) : bytes_eqb a b = true <-> a = b.
Proof.
  split.
  - revert b. induction a as [|x a IH]; intros [|y b] H; simpl in H;
      try discriminate; [reflexivity|].
    apply andb_true_iff in H. destruct H as [Hxy Hab].
    apply Byte.byte_dec_bl in Hxy. apply IH in Hab. congruence.
  - intros ->. apply bytes_eqb_refl.
Qed.

Lemma bytes_eqb_neq (a b : list byte) : bytes_eqb a b = false <-> a <> b.
Proof.
  split.
  - intros H E. apply bytes_eqb_eq in E. congruence.
  - intros H. destruct (bytes_eqb a b) eqn:E; [|reflexivity].
    apply bytes_eqb_eq in E. contradiction.
Qed.

Lemma to_int_small (u : Z) : 0 <= u < 2 ^ 63 -> to_int u = u.
Proof.
  intros H. unfold to_int. cbv zeta.
  rewrite Z.mod_small by lia.
  destruct (Z.ltb_spec u (2 ^ 63)); lia.
Qed.

Lemma to_int_large (u : Z) : 2 ^ 63 <= u < 2 ^ 64 -> to_int u < 0.
Proof.
  intros H. unfold to_int. cbv zeta.
  rewrite Z.mod_small by lia.
  destruct (Z.ltb_spec u (2 ^ 63)); lia.
Qed.

Lemma slice_index_in_range {A : Type} (s : list A) (i : Z) :
  0 <= i < Z.of_nat (length s) ->
  exists a, nth_error s (Z.to_nat i) = Some a /\ slice_index s i = Returns a.
Proof.
  intros H. unfold slice_index.
  destruct (Z.ltb_spec i 0); [lia|].
  destruct (Z.leb_spec (Z.of_nat (length s)) i); [lia|]. simpl.
  destruct (nth_error s (Z.to_nat i)) as [a|] eqn:E.
  - exists a. split; reflexivity.
  - apply nth_error_None in E. lia.
Qed.

Lemma slice_index_out_of_range {A : Type} (s : list A) (i : Z) :
  i < 0 \/ Z.of_nat (length s) <= i -> slice_index s i = Panics.
Proof.
  intros H. unfold slice_index.
  destruct (Z.ltb_spec i 0); [reflexivity|].
  destruct (Z.leb_spec (Z.of_nat (length s)) i); [reflexivity|]. lia.
Qed.

(* ================================================================== *)
(** ** Properties: construction and accessors *)

(** C1.  For a group [G] (a Go slice), a credential [C] and an index
    [i] below the length of [G], with [member] the commitment at
    position [i]: if [member] differs from the commitment of [C], the
    constructor returns no manager and the mismatch error; otherwise it
    returns, without error, the manager that stores [C], [i] and [G]
    (and no engine or tracker yet).  The constructor is a function of
    its three arguments alone: it has no engine to insert into. *)
Theorem NewStaticGroupManager_membership_check :
  forall (G : list rln_IDCommitment) (C : rln_IdentityCredential) (i : Z),
    slice_ok G ->
    0 <= i < Z.of_nat (length G) ->
    exists member,
      nth_error G (Z.to_nat i) = Some member /\
      (IDCommitment C <> member ->
       NewStaticGroupManager G C i = Returns (None, Some ErrMembershipMismatch)) /\
      (IDCommitment C = member ->
       NewStaticGroupManager G C i =
       Returns (Some {| rln := None;
                        identityCredential := Some C;
                        membershipIndex := Some i;
                        group := G;
                        rootTracker := None |}, None)).
Proof.
  intros G C i HG Hi.
  assert (Hint : to_int i = i) by (apply to_int_small; unfold slice_ok in HG; lia).
  destruct (slice_index_in_range G i Hi) as [member [Hnth Hidx]].
  exists member. split; [exact Hnth|].
  unfold NewStaticGroupManager. rewrite Hint, Hidx.
  split; intros H.
  - apply bytes_eqb_neq in H. rewrite H. reflexivity.
  - apply bytes_eqb_eq in H. rewrite H. reflexivity.
Qed.

Lemma NewStaticGroupManager_membership_check_witness :
  NewStaticGroupManager [commitment_A; commitment_B; commitment_C] credential_B 0
  = Returns (None, Some ErrMembershipMismatch)
  /\ exists gm,
       NewStaticGroupManager [commitment_A; commitment_B; commitment_C] credential_B 1
       = Returns (Some gm, None)
       /\ identityCredential gm = Some credential_B
       /\ membershipIndex gm = Some 1
       /\ group gm = [commitment_A; commitment_B; commitment_C].
Proof.
  split.
  - destruct (NewStaticGroupManager_membership_check
                [commitment_A; commitment_B; commitment_C] credential_B 0)
      as [member [Hm [Hne _]]].
    + unfold slice_ok. simpl. lia.
    + simpl. lia.
    + apply Hne. simpl in Hm. injection Hm as <-. discriminate.
  - destruct (NewStaticGroupManager_membership_check
                [commitment_A; commitment_B; commitment_C] credential_B 1)
      as [member [Hm [_ Heq]]].
    + unfold slice_ok. simpl. lia.
    + simpl. lia.
    + eexists. split; [apply Heq; simpl in Hm; injection Hm as <-; reflexivity|].
      repeat split.
Defined.

(** C10.  The membership check indexes the group at [int(index)] with
    no bounds check.  For a [uint] index at or beyond the length of the
    group the constructor panics (index out of range): it returns
    nothing, in particular no mismatch error.  On a Go slice, an index
    below the length never panics. *)
Theorem NewStaticGroupManager_out_of_range :
  forall (G : list rln_IDCommitment) (C : rln_IdentityCredential) (i : Z),
    uint_ok i ->
    (Z.of_nat (length G) <= i ->
     NewStaticGroupManager G C i = Panics /\
     NewStaticGroupManager G C i <> Returns (None, Some ErrMembershipMismatch)) /\
    (slice_ok G -> i < Z.of_nat (length G) ->
     NewStaticGroupManager G C i <> Panics).
Proof.
  intros G C i Hu. unfold uint_ok in Hu. split.
  - intros Hlen.
    assert (HP : NewStaticGroupManager G C i = Panics).
    { unfold NewStaticGroupManager.
      rewrite slice_index_out_of_range; [reflexivity|].
      destruct (Z_lt_ge_dec i (2 ^ 63)) as [Hs|Hl].
      - right. rewrite to_int_small by lia. exact Hlen.
      - left. apply to_int_large. lia. }
    split; [exact HP|]. rewrite HP. discriminate.
  - intros HG Hi. unfold NewStaticGroupManager.
    rewrite to_int_small by (unfold slice_ok in HG; lia).
    destruct (slice_index_in_range G i) as [member [_ Hidx]]; [lia|].
    rewrite Hidx.
    destruct (negb (bytes_eqb (IDCommitment C) member)); discriminate.
Qed.

Lemma NewStaticGroupManager_out_of_range_witness :
  NewStaticGroupManager [commitment_A; commitment_B; commitment_C] credential_B 3
  = Panics
  /\ NewStaticGroupManager [commitment_A; commitment_B; commitment_C] credential_B
       (2 ^ 64 - 1) = Panics
  /\ NewStaticGroupManager [commitment_A; commitment_B; commitment_C] credential_B 2
     <> Panics.
Proof.
  split; [|split].
  - refine (proj1 (proj1 (NewStaticGroupManager_out_of_range
              [commitment_A; commitment_B; commitment_C] credential_B 3 _) _)).
    + unfold uint_ok. lia.
    + simpl. lia.
  - refine (proj1 (proj1 (NewStaticGroupManager_out_of_range
              [commitment_A; commitment_B; commitment_C] credential_B (2 ^ 64 - 1) _) _)).
    + unfold uint_ok. lia.
    + simpl. lia.
  - refine (proj2 (NewStaticGroupManager_out_of_range
              [commitment_A; commitment_B; commitment_C] credential_B 2 _) _ _).
    + unfold uint_ok. lia.
    + unfold slice_ok. simpl. lia.
    + simpl. lia.
Defined.

(** C7.  A manager returned without error by the constructor answers
    both accessors without error, with exactly the credential and the
    index given to the constructor.  For any manager, an accessor
    returns its error only when the field it reads is unset. *)
Theorem accessors_after_construction :
  forall (G : list rln_IDCommitment) (C : rln_IdentityCredential) (i : Z)
         (gm : StaticGroupManager),
    NewStaticGroupManager G C i = Returns (Some gm, None) ->
    IdentityCredentials gm = (C, None) /\
    MembershipIndex gm = (i, None) /\
    (forall gm0 : StaticGroupManager,
        (snd (IdentityCredentials gm0) <> None <-> identityCredential gm0 = None) /\
        (snd (MembershipIndex gm0) <> None <-> membershipIndex gm0 = None)).
Proof.
  intros G C i gm H. unfold NewStaticGroupManager in H.
  destruct (slice_index G (to_int i)) as [member|]; [|discriminate].
  destruct (negb (bytes_eqb (IDCommitment C) member)); [discriminate|].
  injection H as <-.
  split; [reflexivity|]. split; [reflexivity|].
  intros gm0. unfold IdentityCredentials, MembershipIndex.
  destruct (identityCredential gm0), (membershipIndex gm0); simpl;
    repeat split; intros; congruence.
Qed.

Lemma accessors_after_construction_witness :
  exists gm,
    NewStaticGroupManager [commitment_A; commitment_B; commitment_C] credential_B 1
    = Returns (Some gm, None)
    /\ IdentityCredentials gm = (credential_B, None)
    /\ MembershipIndex gm = (1, None).
Proof.
  eexists. split; [reflexivity|].
  split.
  - exact (proj1 (accessors_after_construction
                    [commitment_A; commitment_B; commitment_C] credential_B 1 _
                    eq_refl)).
  - exact (proj1 (proj2 (accessors_after_construction
                    [commitment_A; commitment_B; commitment_C] credential_B 1 _
                    eq_refl))).
Defined.

(* ================================================================== *)
(** ** Properties: start-up and insertion *)

Lemma inserted_app (a b : list Event) :
  inserted (a ++ b) = inserted a ++ inserted b.
Proof.
  induction a as [|[r m [e|]|t e] a IH]; simpl; rewrite ?IH; reflexivity.
Qed.

Lemma insert_calls_app (a b : list Event) :
  insert_calls (a ++ b) = (insert_calls a + insert_calls b)%nat.
Proof.
  induction a as [|[r m e|t e] a IH]; simpl; rewrite ?IH; reflexivity.
Qed.

Lemma sync_calls_app (a b : list Event) :
  sync_calls (a ++ b) = (sync_calls a + sync_calls b)%nat.
Proof.
  induction a as [|[r m e|t e] a IH]; simpl; rewrite ?IH; reflexivity.
Qed.

Lemma inserted_ok_rounds r t (l : list rln_IDCommitment) :
  inserted (ok_rounds r t l) = l.
Proof. induction l as [|m l IH]; simpl; rewrite ?IH; reflexivity. Qed.

Lemma insert_calls_ok_rounds r t (l : list rln_IDCommitment) :
  insert_calls (ok_rounds r t l) = length l.
Proof. induction l as [|m l IH]; simpl; rewrite ?IH; reflexivity. Qed.

Lemma sync_calls_ok_rounds r t (l : list rln_IDCommitment) :
  sync_calls (ok_rounds r t l) = length l.
Proof. induction l as [|m l IH]; simpl; rewrite ?IH; reflexivity. Qed.

Lemma firstn_snoc_nth {A : Type} (l : list A) (k : nat) (a : A) :
  nth_error l k = Some a -> firstn (S k) l = firstn k l ++ [a].
Proof.
  revert k. induction l as [|x l IH]; intros [|k] H; simpl in *;
    try discriminate.
  - injection H as ->. reflexivity.
  - f_equal. apply IH. exact H.
Qed.

Section StartUp.

Context {Ext : Type}.
Variable ins : RLN_ptr -> rln_IDCommitment -> Ext -> Ext * option error.
Variable sync : MerkleRootTracker_ptr -> Ext -> Ext * option error.

(** What the loop of [Start] does on the members [G], from any world:
    it returns, and the calls it made are full rounds up to the first
    failing insert or sync, or full rounds for all of [G]. *)
Lemma Start_loop_calls (p : RLN_ptr) (t : MerkleRootTracker_ptr) :
  forall (G : list rln_IDCommitment) (w : World Ext),
  exists r w' done,
    Start_loop ins sync (Some p) (Some t) G w = Returns (r, w') /\
    calls w' = calls w ++ done /\
    ((r = None /\ done = ok_rounds p t G) \/
     (exists k c e,
         nth_error G k = Some c /\ r = Some e /\
         (done = ok_rounds p t (firstn k G) ++ [EvInsertMember p c (Some e)] \/
          done = ok_rounds p t (firstn k G)
                   ++ [EvInsertMember p c None; EvSync t (Some e)]))).
Proof.
  induction G as [|m G IH]; intros w.
  - exists None, w, []. simpl. rewrite app_nil_r.
    repeat split. left. split; reflexivity.
  - simpl. unfold bind at 1. unfold call_InsertMember.
    destruct (ins p m (ext w)) as [x1 [e|]] eqn:Hins.
    + eexists (Some e), _, [EvInsertMember p m (Some e)].
      split; [reflexivity|]. split; [reflexivity|].
      right. exists 0%nat, m, e. repeat split. left. reflexivity.
    + unfold bind at 1. unfold call_Sync. simpl.
      destruct (sync t x1) as [x2 [e|]] eqn:Hsync.
      * eexists (Some e), _, [EvInsertMember p m None; EvSync t (Some e)].
        split; [reflexivity|]. split; [simpl; rewrite <- app_assoc; reflexivity|].
        right. exists 0%nat, m, e. repeat split. right. reflexivity.
      * destruct (IH {| ext := x2;
                        calls := (calls w ++ [EvInsertMember p m None])
                                   ++ [EvSync t None] |})
          as [r [w' [done [Hrun [Hcalls Hshape]]]]].
        exists r, w', ([EvInsertMember p m None; EvSync t None] ++ done).
        split; [exact Hrun|].
        split; [rewrite Hcalls; simpl; rewrite <- !app_assoc; reflexivity|].
        destruct Hshape as [[-> ->]|[k [c [e [Hk [-> Hd]]]]]].
        -- left. split; reflexivity.
        -- right. exists (S k), c, e. split; [exact Hk|]. split; [reflexivity|].
           destruct Hd as [->| ->]; [left|right]; reflexivity.
Qed.

(** The fields [Start] leaves alone, and what it does to the group. *)
Lemma Start_frame (gm : StaticGroupManager) (ri : option RLN_ptr)
    (rt : option MerkleRootTracker_ptr) (w w' : World Ext)
    (gm' : StaticGroupManager) (r : option error) :
  Start ins sync gm ri rt w = Returns ((gm', r), w') ->
  rln gm' = ri /\ rootTracker gm' = rt /\
  identityCredential gm' = identityCredential gm /\
  membershipIndex gm' = membershipIndex gm /\
  (r = None -> group gm' = []) /\
  (r <> None -> group gm' = group gm).
Proof.
  unfold Start, bind. intros H.
  destruct (call_Sync sync rt w) as [[[e|] w1]|]; try discriminate.
  - injection H as <- <- <-. simpl. repeat split; congruence.
  - simpl in H.
    destruct (Start_loop ins sync ri rt (group gm) w1) as [[[e|] w2]|];
      try discriminate; injection H as <- <- <-; simpl;
      repeat split; congruence.
Qed.

(** The calls the loop of [Start] logs are the calls it made: the
    errors logged are the ones returned, and the state of the
    collaborators went from one call to the next. *)
Lemma Start_loop_performed (p : RLN_ptr) (t : MerkleRootTracker_ptr) :
  forall (G : list rln_IDCommitment) (w w' : World Ext) (r : option error),
    Start_loop ins sync (Some p) (Some t) G w = Returns (r, w') ->
    exists done,
      calls w' = calls w ++ done /\
      performed ins sync done (ext w) (ext w').
Proof.
  induction G as [|m G IH]; intros w w' r H.
  - injection H as _ <-. exists []. rewrite app_nil_r.
    split; reflexivity.
  - cbn [Start_loop] in H. unfold bind at 1 in H.
    unfold call_InsertMember in H.
    destruct (ins p m (ext w)) as [x1 [e|]] eqn:Hins.
    + injection H as _ <-. exists [EvInsertMember p m (Some e)].
      split; [reflexivity|]. cbn [performed ext].
      exists x1. split; [exact Hins|reflexivity].
    + unfold bind at 1 in H. unfold call_Sync in H. cbn [ext calls] in H.
      destruct (sync t x1) as [x2 [e|]] eqn:Hsync.
      * injection H as _ <-.
        exists [EvInsertMember p m None; EvSync t (Some e)].
        split; [cbn [calls]; rewrite <- app_assoc; reflexivity|].
        cbn [performed ext].
        exists x1. split; [exact Hins|].
        exists x2. split; [exact Hsync|reflexivity].
      * destruct (IH _ _ _ H) as [done [Hcalls Hdone]].
        cbn [calls ext] in Hcalls, Hdone.
        exists ([EvInsertMember p m None; EvSync t None] ++ done).
        split; [rewrite Hcalls, <- !app_assoc; reflexivity|].
        cbn [app performed].
        exists x1. split; [exact Hins|].
        exists x2. split; [exact Hsync|exact Hdone].
Qed.

End StartUp.

(** C2.  On a manager holding the group [G], with an engine [p] and a
    tracker [t], [Start] returns.  The calls it logged are the calls it
    made on the engine and the tracker: each returned the error logged
    for it, each started from the state the one before left, and the
    state [Start] leaves is the one the last call left.  In order, they
    are one of:
      - the first sync alone, which failed with the error returned;
      - the first sync, an insert and a sync for each of the first [k]
        members, then the insert of member [k], which failed with the
        error returned (members [0..k-1] are inserted, no sync follows);
      - the same with the insert of member [k] succeeding and the sync
        after it failing with the error returned;
      - the first sync, then an insert and a sync for every member of
        [G] in list order, none failing: no error is returned, after
        [length G] inserts and [length G + 1] syncs. *)
Theorem Start_call_sequence :
  forall (Ext : Type)
         (ins : RLN_ptr -> rln_IDCommitment -> Ext -> Ext * option error)
         (sync : MerkleRootTracker_ptr -> Ext -> Ext * option error)
         (gm : StaticGroupManager) (p : RLN_ptr) (t : MerkleRootTracker_ptr)
         (w : World Ext),
  exists gm' r w' done,
    Start ins sync gm (Some p) (Some t) w = Returns ((gm', r), w') /\
    calls w' = calls w ++ done /\
    performed ins sync done (ext w) (ext w') /\
    ((exists e, r = Some e /\ done = [EvSync t (Some e)] /\ inserted done = [] /\
                sync t (ext w) = (ext w', Some e))
     \/
     (exists k c e,
         nth_error (group gm) k = Some c /\ r = Some e /\
         done = EvSync t None :: ok_rounds p t (firstn k (group gm))
                  ++ [EvInsertMember p c (Some e)] /\
         inserted done = firstn k (group gm))
     \/
     (exists k c e,
         nth_error (group gm) k = Some c /\ r = Some e /\
         done = EvSync t None :: ok_rounds p t (firstn k (group gm))
                  ++ [EvInsertMember p c None; EvSync t (Some e)] /\
         inserted done = firstn (S k) (group gm))
     \/
     (r = None /\
      done = EvSync t None :: ok_rounds p t (group gm) /\
      inserted done = group gm /\
      insert_calls done = length (group gm) /\
      sync_calls done = S (length (group gm)))).
Proof.
  intros Ext ins sync gm p t w.
  unfold Start. unfold bind at 1. unfold call_Sync at 1.
  destruct (sync t (ext w)) as [x0 [e0|]] eqn:Hsync.
  - eexists _, (Some e0), _, [EvSync t (Some e0)].
    split; [reflexivity|]. split; [reflexivity|].
    split; [cbn [performed ext]; exists x0; split; [exact Hsync|reflexivity]|].
    left. exists e0. repeat split.
  - cbn [group]. unfold bind at 1.
    destruct (Start_loop_calls ins sync p t (group gm)
                {| ext := x0; calls := calls w ++ [EvSync t None] |})
      as [r [w' [done [Hrun [Hcalls Hshape]]]]].
    destruct (Start_loop_performed ins sync p t (group gm) _ w' r Hrun)
      as [done' [Hcalls' Hdone]].
    assert (Hsame : done' = done).
    { rewrite Hcalls in Hcalls'. apply app_inv_head in Hcalls'.
      symmetry. exact Hcalls'. }
    subst done'. cbn [ext] in Hdone.
    assert (Hperf : performed ins sync (EvSync t None :: done) (ext w) (ext w')).
    { cbn [performed]. exists x0. split; [exact Hsync|exact Hdone]. }
    rewrite Hrun.
    destruct Hshape as [[-> ->]|[k [c [e [Hk [-> Hd]]]]]].
    + eexists _, None, w', (EvSync t None :: ok_rounds p t (group gm)).
      split; [reflexivity|].
      split; [rewrite Hcalls; simpl; rewrite <- app_assoc; reflexivity|].
      split; [exact Hperf|].
      right. right. right. simpl.
      rewrite inserted_ok_rounds, insert_calls_ok_rounds, sync_calls_ok_rounds.
      repeat split.
    + destruct Hd as [->| ->].
      * eexists _, (Some e), w', _.
        split; [reflexivity|].
        split; [rewrite Hcalls; simpl; rewrite <- app_assoc; reflexivity|].
        split; [exact Hperf|].
        right. left. exists k, c, e. repeat split; [exact Hk|].
        simpl. rewrite inserted_app, inserted_ok_rounds. simpl.
        apply app_nil_r.
      * eexists _, (Some e), w', _.
        split; [reflexivity|].
        split; [rewrite Hcalls; simpl; rewrite <- app_assoc; reflexivity|].
        split; [exact Hperf|].
        right. right. left. exists k, c, e. repeat split; [exact Hk|].
        simpl. rewrite inserted_app, inserted_ok_rounds. simpl.
        symmetry. apply firstn_snoc_nth. exact Hk.
Qed.

(** C8.  [Start] on an engine [p] and a tracker [t] returns; the
    credential and the index of the manager are what they were; when no
    error is returned the group of the manager is empty, and when an
    error is returned the group is what it was. *)
Theorem Start_discards_group :
  forall (Ext : Type)
         (ins : RLN_ptr -> rln_IDCommitment -> Ext -> Ext * option error)
         (sync : MerkleRootTracker_ptr -> Ext -> Ext * option error)
         (gm : StaticGroupManager) (p : RLN_ptr) (t : MerkleRootTracker_ptr)
         (w : World Ext),
  exists gm' r w',
    Start ins sync gm (Some p) (Some t) w = Returns ((gm', r), w') /\
    identityCredential gm' = identityCredential gm /\
    membershipIndex gm' = membershipIndex gm /\
    (r = None -> group gm' = []) /\
    (r <> None -> group gm' = group gm).
Proof.
  intros Ext ins sync gm p t w.
  destruct (Start ins sync gm (Some p) (Some t) w) as [[[gm' r] w']|] eqn:H.
  - exists gm', r, w'. split; [reflexivity|].
    destruct (Start_frame ins sync gm (Some p) (Some t) w w' gm' r H)
      as (_ & _ & Hc & Hi & Hok & Herr).
    repeat split; assumption.
  - exfalso. revert H. unfold Start, bind, call_Sync.
    destruct (sync t (ext w)) as [x0 [e0|]]; [discriminate|].
    destruct (Start_loop_calls ins sync p t (group gm)
                {| ext := x0; calls := calls w ++ [EvSync t None] |})
      as [r [w' [done [Hrun _]]]].
    cbn [group]. rewrite Hrun. destruct r; discriminate.
Qed.

(** C4.  On a manager that [Start] was called on with an engine [p]
    and a tracker [t]: [InsertMember] calls the engine's insert.  If
    the insert fails, its error is returned, the insert is the only
    call made (no sync), and the collaborators are left as the failed
    insert left them.  If the insert succeeds, the tracker's sync is
    called exactly once after it, and what the sync returns (an error
    or none) is returned. *)
Theorem InsertMember_calls :
  forall (Ext : Type)
         (ins : RLN_ptr -> rln_IDCommitment -> Ext -> Ext * option error)
         (sync : MerkleRootTracker_ptr -> Ext -> Ext * option error)
         (gm0 gm : StaticGroupManager) (p : RLN_ptr) (t : MerkleRootTracker_ptr)
         (w0 w1 : World Ext) (r0 : option error),
    Start ins sync gm0 (Some p) (Some t) w0 = Returns ((gm, r0), w1) ->
    forall (c : rln_IDCommitment) (w : World Ext),
      (forall x1 e,
          ins p c (ext w) = (x1, Some e) ->
          exists w',
            InsertMember ins sync gm c w = Returns (Some e, w') /\
            calls w' = calls w ++ [EvInsertMember p c (Some e)] /\
            sync_calls (calls w') = sync_calls (calls w) /\
            ext w' = x1) /\
      (forall x1 x2 e2,
          ins p c (ext w) = (x1, None) ->
          sync t x1 = (x2, e2) ->
          exists w',
            InsertMember ins sync gm c w = Returns (e2, w') /\
            calls w' = calls w ++ [EvInsertMember p c None; EvSync t e2] /\
            sync_calls (calls w') = S (sync_calls (calls w)) /\
            ext w' = x2).
Proof.
  intros Ext ins sync gm0 gm p t w0 w1 r0 HStart c w.
  destruct (Start_frame ins sync gm0 (Some p) (Some t) w0 w1 gm r0 HStart)
    as (Hrln & Htr & _).
  unfold InsertMember, bind, call_InsertMember, call_Sync.
  rewrite Hrln, Htr. split.
  - intros x1 e Hins. rewrite Hins.
    eexists. split; [reflexivity|]. cbn [calls ext].
    rewrite sync_calls_app. simpl. repeat split. lia.
  - intros x1 x2 e2 Hins Hsync. rewrite Hins. cbn [ext calls]. rewrite Hsync.
    exists {| ext := x2;
              calls := calls w ++ [EvInsertMember p c None; EvSync t e2] |}.
    cbn [calls ext]. rewrite sync_calls_app. simpl.
    split; [rewrite <- app_assoc; destruct e2; reflexivity|].
    repeat split. lia.
Qed.

Lemma InsertMember_calls_witness :
  exists gm w1,
    Start bench_InsertMember bench_Sync bench_manager (Some 1%nat) (Some 2%nat)
      (bench_start 10) = Returns ((gm, None), w1)
    /\ exists w',
         InsertMember bench_InsertMember bench_Sync gm commitment_A w1
         = Returns (Some (errors_New "tree is full"%string), w')
         /\ sync_calls (calls w') = sync_calls (calls w1)
         /\ roots (ext w') = roots (ext w1).
Proof.
  eexists. eexists. split; [reflexivity|].
  match goal with
  | |- context [InsertMember _ _ ?g _ ?w] =>
      destruct (proj1 (InsertMember_calls Bench bench_InsertMember bench_Sync
                         bench_manager g 1%nat 2%nat (bench_start 10) w None
                         eq_refl commitment_A w) _ _ eq_refl)
        as [w' [Hrun [_ [Hsync Hext]]]]
  end.
  exists w'. split; [exact Hrun|]. split; [exact Hsync|].
  rewrite Hext. reflexivity.
Defined.

(* ================================================================== *)
(** ** Properties: signal and proof extraction *)




(** C9.  [toRateLimitProof] returns nil exactly when the message is
    nil or carries no proof; in particular it returns, and does not
    panic, on both.  [toRLNSignal] of a nil message is the empty byte
    sequence. *)
Theorem extraction_of_absent_input :
  forall (Bytes32 Bytes128 : list byte -> exec (list byte))
         (m : option pb.WakuMessage),
    (toRateLimitProof Bytes32 Bytes128 m = Returns None <->
     (m = None \/ exists msg, m = Some msg /\ pb.RateLimitProof_ msg = None)) /\
    toRateLimitProof Bytes32 Bytes128 None = Returns None /\
    toRLNSignal None = [].
Proof.
  intros Bytes32 Bytes128 m.
  split; [|split; reflexivity].
  split.
  - destruct m as [msg|]; [|left; reflexivity].
    intros H. right. exists msg. split; [reflexivity|].
    unfold toRateLimitProof in H.
    destruct (pb.RateLimitProof_ msg) as [p|]; [|reflexivity].
    exfalso. revert H. unfold exec_bind.
    destruct (Bytes128 (pb.Proof p)); [|discriminate].
    destruct (Bytes32 (pb.MerkleRoot p)); [|discriminate].
    destruct (Bytes32 (pb.Epoch p)); [|discriminate].
    destruct (Bytes32 (pb.ShareX p)); [|discriminate].
    destruct (Bytes32 (pb.ShareY p)); [|discriminate].
    destruct (Bytes32 (pb.Nullifier p)); [|discriminate].
    destruct (Bytes32 (pb.RlnIdentifier p)); discriminate.
  - intros [->|[msg [-> H]]]; [reflexivity|].
    unfold toRateLimitProof. rewrite H. reflexivity.
Qed.

(* ================================================================== *)
(** ** Properties: the epoch gap *)

(** C5.  For a positive epoch unit length [E] (in seconds),
    [maxEpochGap] is 20 divided by [E], rounded down: the largest
    integer [g] with [g * E <= 20]. *)
Theorem maxEpochGap_is_floor :
  forall E : Z,
    0 < E ->
    maxEpochGap E = 20 / E /\
    maxEpochGap E * E <= 20 < (maxEpochGap E + 1) * E.
Proof.
  intros E HE.
  assert (Hq : maxEpochGap E = 20 / E).
  { unfold maxEpochGap, maxClockGapSeconds, to_int64. cbv zeta.
    rewrite Z.quot_div_nonneg by lia.
    assert (H0 : 0 <= 20 / E) by (apply Z.div_pos; lia).
    assert (H1 : 20 / E <= 20) by (apply Z.div_le_upper_bound; nia).
    rewrite Z.mod_small by lia.
    destruct (Z.ltb_spec (20 / E) (2 ^ 63)); lia. }
  split; [exact Hq|]. rewrite Hq.
  pose proof (Z.mul_div_le 20 E HE).
  pose proof (Z.mul_succ_div_gt 20 E HE).
  lia.
Qed.

Lemma maxEpochGap_is_floor_witness :
  maxEpochGap 10 = 2 /\ maxEpochGap 3 = 6 /\ maxEpochGap 21 = 0.
Proof.
  split; [|split].
  - exact (proj1 (maxEpochGap_is_floor 10 eq_refl)).
  - exact (proj1 (maxEpochGap_is_floor 3 eq_refl)).
  - exact (proj1 (maxEpochGap_is_floor 21 eq_refl)).
Defined.

(* ================================================================== *)
(** ** Properties: the epoch tolerance step *)

(** C6.  In the validation pipeline, for a message with a proof: when
    the distance between the epoch of the proof and the current epoch
    is exactly [maxEpochGap], the epoch step lets the message through,
    and the result is that of the remaining steps; when the distance
    is [maxEpochGap + 1], the message is classified invalid and no
    query is made, so no cryptographic verification either. *)
Theorem epoch_tolerance_boundary :
  forall (E : Z) (epoch_number : list byte -> Z)
         (is_acceptable : list byte -> bool)
         (verify : rln_RateLimitProof -> list byte -> bool + error)
         (rate_exceeded : rln_RateLimitProof -> bool)
         (msg : pb.WakuMessage) (proof : rln_RateLimitProof)
         (currentEpoch : Z) (log : list Query),
    (epoch_distance (epoch_number (Epoch proof)) currentEpoch = maxEpochGap E ->
     validateMessage E epoch_number is_acceptable verify rate_exceeded
       msg proof currentEpoch log
     = validate_from_root is_acceptable verify rate_exceeded
         proof (toRLNSignal (Some msg)) log) /\
    (epoch_distance (epoch_number (Epoch proof)) currentEpoch = maxEpochGap E + 1 ->
     exists log',
       validateMessage E epoch_number is_acceptable verify rate_exceeded
         msg proof currentEpoch log
       = Returns (invalidMessage, log') /\
       log' = log /\
       verify_count log' = verify_count log).
Proof.
  intros E epoch_number is_acceptable verify rate_exceeded msg proof cur log.
  unfold validateMessage. cbv zeta. split; intros H; rewrite H.
  - rewrite Z.ltb_irrefl. reflexivity.
  - destruct (Z.ltb_spec (maxEpochGap E) (maxEpochGap E + 1)); [|lia].
    exists log. repeat split.
Qed.

Lemma epoch_tolerance_boundary_witness :
  (exists log',
      validateMessage 10 bench_epoch_number (fun _ => true)
        (fun _ _ => inl true) (fun _ => false)
        bench_message (bench_proof x07) 5 []
      = Returns (validMessage, log')
      /\ verify_count log' = 1%nat)
  /\ validateMessage 10 bench_epoch_number (fun _ => true)
       (fun _ _ => inl true) (fun _ => false)
       bench_message (bench_proof x07) 4 []
     = Returns (invalidMessage, []).
Proof.
  split.
  - rewrite (proj1 (epoch_tolerance_boundary 10 bench_epoch_number
                      (fun _ => true) (fun _ _ => inl true) (fun _ => false)
                      bench_message (bench_proof x07) 5 []) eq_refl).
    eexists. split; reflexivity.
  - destruct (proj2 (epoch_tolerance_boundary 10 bench_epoch_number
                       (fun _ => true) (fun _ _ => inl true) (fun _ => false)
                       bench_message (bench_proof x07) 4 []) eq_refl)
      as [log' [Hrun [Hlog _]]].
    rewrite Hrun, Hlog. reflexivity.
Defined.

(* ================================================================== *)
(** ** Runs on the bench *)

(** Group [A, B, C], local identity [B] at index 1: construction
    succeeds and [Start] makes seven calls, inserts the three members
    and drops the group. *)
Example bench_construct :
  NewStaticGroupManager bench_group credential_B 1
  = Returns (Some bench_manager, None).
Proof. reflexivity. Qed.

Example bench_start_up :
  exists gm w,
    Start bench_InsertMember bench_Sync bench_manager (Some 1%nat) (Some 2%nat)
      (bench_start 10) = Returns ((gm, None), w)
    /\ group gm = []
    /\ MembershipIndex gm = (1, None)
    /\ IdentityCredentials gm = (credential_B, None)
    /\ leaves (ext w) = bench_group
    /\ calls w = EvSync 2%nat None :: ok_rounds 1%nat 2%nat bench_group.
Proof. eexists. eexists. repeat split. Qed.

(** With a budget of two syncs, the sync after the second insert fails:
    two members are inserted, the group is kept. *)
Example bench_start_up_sync_fails :
  exists gm w,
    Start bench_InsertMember bench_Sync bench_manager (Some 1%nat) (Some 2%nat)
      (bench_start 2)
    = Returns ((gm, Some (errors_New "root not available"%string)), w)
    /\ group gm = bench_group
    /\ inserted (calls w) = [commitment_A; commitment_B]
    /\ sync_calls (calls w) = 3%nat.
Proof. eexists. eexists. repeat split. Qed.

(** A tree of three leaves takes no fourth member: the insert fails and
    [Start] stops there. *)
Example bench_start_up_insert_fails :
  exists gm w,
    Start bench_InsertMember bench_Sync
      (set_group bench_manager (bench_group ++ [commitment_A; commitment_B]))
      (Some 1%nat) (Some 2%nat) (bench_start 10)
    = Returns ((gm, Some (errors_New "tree is full"%string)), w)
    /\ inserted (calls w) = bench_group
    /\ insert_calls (calls w) = 4%nat
    /\ sync_calls (calls w) = 4%nat.
Proof. eexists. eexists. repeat split. Qed.

(** Without a tracker, [Start] dereferences nil. *)
Example bench_start_up_nil_tracker :
  Start bench_InsertMember bench_Sync bench_manager (Some 1%nat) None
    (bench_start 10) = Panics.
Proof. reflexivity. Qed.

(** Payload and topic are not delimited in the signal: moving a byte
    from one to the other leaves it unchanged. *)
Example bench_signal_boundary :
  toRLNSignal (Some {| pb.Payload := [x68; x69; x2f];
                       pb.ContentTopic := "t"%string;
                       pb.RateLimitProof_ := None |})
  = toRLNSignal (Some bench_message).
Proof. reflexivity. Qed.

(* ================================================================== *)
(** ** Further properties: the manager over its lifetime *)

(** X1.  When [Start] returns an error, starting the resulting manager
    again is the same computation as starting the original one: the
    whole group is replayed from its first member, the members already
    inserted included. *)
Theorem Start_retry_replays_group :
  forall (Ext : Type)
         (ins : RLN_ptr -> rln_IDCommitment -> Ext -> Ext * option error)
         (sync : MerkleRootTracker_ptr -> Ext -> Ext * option error)
         (gm gm' : StaticGroupManager) (p : option RLN_ptr)
         (t : option MerkleRootTracker_ptr) (w w' : World Ext) (e : error),
    Start ins sync gm p t w = Returns ((gm', Some e), w') ->
    forall (p2 : option RLN_ptr) (t2 : option MerkleRootTracker_ptr)
           (w2 : World Ext),
      Start ins sync gm' p2 t2 w2 = Start ins sync gm p2 t2 w2.
Proof.
  intros Ext ins sync gm gm' p t w w' e H p2 t2 w2.
  destruct (Start_frame ins sync gm p t w w' gm' (Some e) H)
    as (_ & _ & Hc & Hi & _ & Hg).
  assert (Hgroup : group gm' = group gm) by (apply Hg; discriminate).
  unfold Start. cbn [group identityCredential membershipIndex].
  rewrite Hc, Hi, Hgroup. reflexivity.
Qed.

Lemma Start_retry_replays_group_witness :
  exists gm' w',
    Start bench_InsertMember bench_Sync bench_manager (Some 1%nat) (Some 2%nat)
      (bench_start 2)
    = Returns ((gm', Some (errors_New "root not available"%string)), w')
    /\ inserted (calls w') = [commitment_A; commitment_B]
    /\ Start bench_InsertMember bench_Sync gm' (Some 1%nat) (Some 2%nat)
         (bench_start 10)
       = Start bench_InsertMember bench_Sync bench_manager (Some 1%nat)
           (Some 2%nat) (bench_start 10).
Proof.
  eexists. eexists. split; [reflexivity|]. split; [reflexivity|].
  exact (Start_retry_replays_group Bench bench_InsertMember bench_Sync
           bench_manager _ (Some 1%nat) (Some 2%nat) (bench_start 2) _ _
           eq_refl (Some 1%nat) (Some 2%nat) (bench_start 10)).
Defined.

(** X2.  After [Start] has returned without error, a second [Start]
    (on any engine, even nil, and any tracker [t2]) inserts nothing: it
    makes one call, the tracker's sync, and returns what that returns. *)
Theorem Start_again_only_syncs :
  forall (Ext : Type)
         (ins : RLN_ptr -> rln_IDCommitment -> Ext -> Ext * option error)
         (sync : MerkleRootTracker_ptr -> Ext -> Ext * option error)
         (gm gm' : StaticGroupManager) (p : option RLN_ptr)
         (t : option MerkleRootTracker_ptr) (w w' : World Ext),
    Start ins sync gm p t w = Returns ((gm', None), w') ->
    forall (p2 : option RLN_ptr) (t2 : MerkleRootTracker_ptr) (w2 : World Ext),
    exists gm'' r w3,
      Start ins sync gm' p2 (Some t2) w2 = Returns ((gm'', r), w3) /\
      calls w3 = calls w2 ++ [EvSync t2 r] /\
      (ext w3, r) = sync t2 (ext w2) /\
      group gm'' = [].
Proof.
  intros Ext ins sync gm gm' p t w w' H p2 t2 w2.
  destruct (Start_frame ins sync gm p t w w' gm' None H)
    as (_ & _ & _ & _ & Hg & _).
  specialize (Hg eq_refl).
  unfold Start, bind, call_Sync. cbn [group]. rewrite Hg.
  destruct (sync t2 (ext w2)) as [x [e|]].
  - eexists _, (Some e), _. repeat split.
  - eexists _, None, _. simpl. repeat split.
Qed.

Lemma Start_again_only_syncs_witness :
  exists gm' w',
    Start bench_InsertMember bench_Sync bench_manager (Some 1%nat) (Some 2%nat)
      (bench_start 10) = Returns ((gm', None), w')
    /\ exists gm'' r w3,
         Start bench_InsertMember bench_Sync gm' None (Some 5%nat) w'
         = Returns ((gm'', r), w3)
         /\ calls w3 = calls w' ++ [EvSync 5%nat r].
Proof.
  eexists. eexists. split; [reflexivity|].
  match goal with
  | |- context [Start _ _ ?g None _ ?w] =>
      destruct (Start_again_only_syncs Bench bench_InsertMember bench_Sync
                  bench_manager g (Some 1%nat) (Some 2%nat) (bench_start 10) w
                  eq_refl None 5%nat w)
        as [gm'' [r [w3 [Hrun [Hcalls _]]]]]
  end.
  exists gm'', r, w3. split; [exact Hrun | exact Hcalls].
Defined.

(** X3.  The credential and the index given to the constructor are
    what the accessors return, without error, on the manager that
    [Start] leaves behind, whether [Start] returned an error or not. *)
Theorem accessors_after_Start :
  forall (Ext : Type)
         (ins : RLN_ptr -> rln_IDCommitment -> Ext -> Ext * option error)
         (sync : MerkleRootTracker_ptr -> Ext -> Ext * option error)
         (G : list rln_IDCommitment) (C : rln_IdentityCredential) (i : Z)
         (gm gm' : StaticGroupManager) (p : option RLN_ptr)
         (t : option MerkleRootTracker_ptr) (w w' : World Ext)
         (r : option error),
    NewStaticGroupManager G C i = Returns (Some gm, None) ->
    Start ins sync gm p t w = Returns ((gm', r), w') ->
    IdentityCredentials gm' = (C, None) /\ MembershipIndex gm' = (i, None).
Proof.
  intros Ext ins sync G C i gm gm' p t w w' r HNew HStart.
  destruct (Start_frame ins sync gm p t w w' gm' r HStart)
    as (_ & _ & Hc & Hi & _).
  unfold NewStaticGroupManager in HNew.
  destruct (slice_index G (to_int i)) as [member|]; [|discriminate].
  destruct (negb (bytes_eqb (IDCommitment C) member)); [discriminate|].
  injection HNew as <-. simpl in Hc, Hi.
  unfold IdentityCredentials, MembershipIndex. rewrite Hc, Hi.
  split; reflexivity.
Qed.

Lemma accessors_after_Start_witness :
  exists gm' w',
    Start bench_InsertMember bench_Sync bench_manager (Some 1%nat) (Some 2%nat)
      (bench_start 2)
    = Returns ((gm', Some (errors_New "root not available"%string)), w')
    /\ IdentityCredentials gm' = (credential_B, None)
    /\ MembershipIndex gm' = (1, None).
Proof.
  eexists. eexists. split; [reflexivity|].
  exact (accessors_after_Start Bench bench_InsertMember bench_Sync
           bench_group credential_B 1 bench_manager _ (Some 1%nat)
           (Some 2%nat) (bench_start 2) _ _ eq_refl eq_refl).
Defined.

Lemma Start_success_calls (Ext : Type)
    (ins : RLN_ptr -> rln_IDCommitment -> Ext -> Ext * option error)
    (sync : MerkleRootTracker_ptr -> Ext -> Ext * option error)
    (gm gm' : StaticGroupManager) (p : RLN_ptr) (t : MerkleRootTracker_ptr)
    (w w' : World Ext) :
  Start ins sync gm (Some p) (Some t) w = Returns ((gm', None), w') ->
  calls w' = calls w ++ EvSync t None :: ok_rounds p t (group gm).
Proof.
  unfold Start, bind, call_Sync. intros H.
  destruct (sync t (ext w)) as [x0 [e0|]]; [discriminate|].
  cbn [group] in H.
  destruct (Start_loop_calls ins sync p t (group gm)
              {| ext := x0; calls := calls w ++ [EvSync t None] |})
    as [r [w1 [done [Hrun [Hcalls Hshape]]]]].
  rewrite Hrun in H.
  destruct Hshape as [[-> ->]|[k [c [e [_ [-> _]]]]]]; [|discriminate].
  injection H as _ <-. rewrite Hcalls. cbn [calls].
  rewrite <- app_assoc. reflexivity.
Qed.

(** X26.  A start-up without error followed by an [InsertMember] of
    [c] without error leaves the same calls as a start-up with [c]
    added at the end of the group: the first sync, then an insert and a
    sync for each member of the group and for [c], in this order. *)
Theorem Start_then_InsertMember :
  forall (Ext : Type)
         (ins : RLN_ptr -> rln_IDCommitment -> Ext -> Ext * option error)
         (sync : MerkleRootTracker_ptr -> Ext -> Ext * option error)
         (gm gm' : StaticGroupManager) (p : RLN_ptr) (t : MerkleRootTracker_ptr)
         (w w' w'' : World Ext) (c : rln_IDCommitment),
    Start ins sync gm (Some p) (Some t) w = Returns ((gm', None), w') ->
    InsertMember ins sync gm' c w' = Returns (None, w'') ->
    calls w'' = calls w ++ EvSync t None :: ok_rounds p t (group gm ++ [c]) /\
    inserted (EvSync t None :: ok_rounds p t (group gm ++ [c]))
    = group gm ++ [c].
Proof.
  intros Ext ins sync gm gm' p t w w' w'' c HStart HInsert.
  destruct (Start_frame ins sync gm (Some p) (Some t) w w' gm' None HStart)
    as (Hrln & Htr & _).
  pose proof (Start_success_calls Ext ins sync gm gm' p t w w' HStart) as Hcalls.
  split.
  - revert HInsert. unfold InsertMember, bind, call_InsertMember, call_Sync.
    rewrite Hrln, Htr.
    destruct (ins p c (ext w')) as [x1 [e1|]]; [discriminate|].
    cbn [ext calls].
    destruct (sync t x1) as [x2 [e2|]]; [discriminate|].
    intros H. injection H as <-. cbn [calls]. rewrite Hcalls.
    unfold ok_rounds. rewrite flat_map_app. simpl.
    rewrite <- !app_assoc. reflexivity.
  - simpl. apply inserted_ok_rounds.
Qed.

Lemma Start_then_InsertMember_witness :
  exists gm' w' w'',
    Start bench_InsertMember bench_Sync
      (set_group bench_manager [commitment_A; commitment_B])
      (Some 1%nat) (Some 2%nat) (bench_start 10) = Returns ((gm', None), w')
    /\ InsertMember bench_InsertMember bench_Sync gm' commitment_C w'
       = Returns (None, w'')
    /\ calls w''
       = calls (bench_start 10)
         ++ EvSync 2%nat None
            :: ok_rounds 1%nat 2%nat ([commitment_A; commitment_B] ++ [commitment_C]).
Proof.
  eexists. eexists. eexists.
  split; [reflexivity|]. split; [reflexivity|].
  exact (proj1 (Start_then_InsertMember Bench bench_InsertMember bench_Sync
                  (set_group bench_manager [commitment_A; commitment_B]) _
                  1%nat 2%nat (bench_start 10) _ _ commitment_C
                  eq_refl eq_refl)).
Defined.

(* ================================================================== *)
(** ** Further properties: signal, proof extraction, epoch gap *)

Lemma list_byte_of_string_app (s t : string) :
  list_byte_of_string (s ++ t)%string
  = list_byte_of_string s ++ list_byte_of_string t.
Proof.
  unfold list_byte_of_string.
  induction s as [|c s IH]; simpl; [reflexivity|].
  rewrite IH. reflexivity.
Qed.

Lemma list_byte_of_string_length (s : string) :
  length (list_byte_of_string s) = String.length s.
Proof.
  unfold list_byte_of_string.
  induction s as [|c s IH]; simpl; [reflexivity|].
  rewrite IH. reflexivity.
Qed.

(** X4.  The signal does not record where the payload ends: bytes [x]
    at the end of the payload can be moved to the front of the content
    topic without changing the signal.  Its length is the length of the
    payload plus that of the topic. *)
Theorem toRLNSignal_boundary_not_recorded :
  forall (payload : list byte) (x topic : string)
         (proof1 proof2 : option pb.RateLimitProof),
    toRLNSignal (Some {| pb.Payload := payload ++ list_byte_of_string x;
                         pb.ContentTopic := topic;
                         pb.RateLimitProof_ := proof1 |})
    = toRLNSignal (Some {| pb.Payload := payload;
                           pb.ContentTopic := (x ++ topic)%string;
                           pb.RateLimitProof_ := proof2 |})
    /\ length (toRLNSignal (Some {| pb.Payload := payload;
                                    pb.ContentTopic := topic;
                                    pb.RateLimitProof_ := proof1 |}))
       = (length payload + String.length topic)%nat.
Proof.
  intros payload x topic proof1 proof2. unfold toRLNSignal.
  cbn [pb.Payload pb.ContentTopic].
  split.
  - rewrite list_byte_of_string_app, app_assoc. reflexivity.
  - rewrite length_app, list_byte_of_string_length. reflexivity.
Qed.

(** X5.  On a message that carries a proof, [toRateLimitProof] panics
    exactly when the conversion of one of the seven fields panics;
    otherwise it returns a proof (never nil) each of whose fields is the
    conversion of the field of the same name, [Proof] by [Bytes128] and
    the others by [Bytes32]. *)
Theorem toRateLimitProof_of_present_proof :
  forall (Bytes32 Bytes128 : list byte -> exec (list byte))
         (msg : pb.WakuMessage) (p : pb.RateLimitProof),
    pb.RateLimitProof_ msg = Some p ->
    (toRateLimitProof Bytes32 Bytes128 (Some msg) = Panics <->
     (Bytes128 (pb.Proof p) = Panics \/ Bytes32 (pb.MerkleRoot p) = Panics \/
      Bytes32 (pb.Epoch p) = Panics \/ Bytes32 (pb.ShareX p) = Panics \/
      Bytes32 (pb.ShareY p) = Panics \/ Bytes32 (pb.Nullifier p) = Panics \/
      Bytes32 (pb.RlnIdentifier p) = Panics)) /\
    (toRateLimitProof Bytes32 Bytes128 (Some msg) <> Panics ->
     exists r,
       toRateLimitProof Bytes32 Bytes128 (Some msg) = Returns (Some r) /\
       Bytes128 (pb.Proof p) = Returns (Proof r) /\
       Bytes32 (pb.MerkleRoot p) = Returns (MerkleRoot r) /\
       Bytes32 (pb.Epoch p) = Returns (Epoch r) /\
       Bytes32 (pb.ShareX p) = Returns (ShareX r) /\
       Bytes32 (pb.ShareY p) = Returns (ShareY r) /\
       Bytes32 (pb.Nullifier p) = Returns (Nullifier r) /\
       Bytes32 (pb.RlnIdentifier p) = Returns (RLNIdentifier r)).
Proof.
  intros Bytes32 Bytes128 msg p Hp.
  unfold toRateLimitProof. rewrite Hp. unfold exec_bind.
  destruct (Bytes128 (pb.Proof p)) as [a1|];
    [|split; [split; auto|intros H; contradiction]].
  destruct (Bytes32 (pb.MerkleRoot p)) as [a2|];
    [|split; [split; auto|intros H; contradiction]].
  destruct (Bytes32 (pb.Epoch p)) as [a3|];
    [|split; [split; auto|intros H; contradiction]].
  destruct (Bytes32 (pb.ShareX p)) as [a4|];
    [|split; [split; auto 6|intros H; contradiction]].
  destruct (Bytes32 (pb.ShareY p)) as [a5|];
    [|split; [split; auto 7|intros H; contradiction]].
  destruct (Bytes32 (pb.Nullifier p)) as [a6|];
    [|split; [split; auto 8|intros H; contradiction]].
  destruct (Bytes32 (pb.RlnIdentifier p)) as [a7|];
    [|split; [split; auto 9|intros H; contradiction]].
  split.
  - split; [discriminate|].
    intros H. repeat (destruct H as [H|H]; [discriminate|]). discriminate.
  - intros _. eexists. split; [reflexivity|]. simpl. repeat split.
Qed.

Lemma toRateLimitProof_of_present_proof_witness :
  toRateLimitProof (bench_Bytes 32) (bench_Bytes 128)
    (Some (bench_message_with 129)) = Panics
  /\ exists r,
       toRateLimitProof (bench_Bytes 32) (bench_Bytes 128)
         (Some (bench_message_with 128)) = Returns (Some r)
       /\ length (Epoch r) = 32%nat.
Proof.
  split.
  - apply (proj1 (toRateLimitProof_of_present_proof (bench_Bytes 32)
                    (bench_Bytes 128) (bench_message_with 129)
                    (bench_pb_proof 129) eq_refl)).
    left. reflexivity.
  - destruct (proj2 (toRateLimitProof_of_present_proof (bench_Bytes 32)
                       (bench_Bytes 128) (bench_message_with 128)
                       (bench_pb_proof 128) eq_refl))
      as [r [Hrun [_ [_ [Hepoch _]]]]].
    + discriminate.
    + exists r. split; [exact Hrun|].
      assert (H : Returns (Epoch r) = Returns (repeat x00 31%nat ++ [x07]))
        by (rewrite <- Hepoch; reflexivity).
      injection H as ->. reflexivity.
Defined.

Lemma maxEpochGap_div (E : Z) : 0 < E -> maxEpochGap E = 20 / E.
Proof.
  intros HE. unfold maxEpochGap, maxClockGapSeconds, to_int64. cbv zeta.
  rewrite Z.quot_div_nonneg by lia.
  assert (H0 : 0 <= 20 / E) by (apply Z.div_pos; lia).
  assert (H1 : 20 / E <= 20) by (apply Z.div_le_upper_bound; nia).
  rewrite Z.mod_small by lia.
  destruct (Z.ltb_spec (20 / E) (2 ^ 63)); lia.
Qed.

(** X6.  For a positive epoch unit, [maxEpochGap] lies between 0 and
    20; it is 0 exactly when the unit is longer than 20 seconds; and a
    longer unit never gives a larger gap. *)
Theorem maxEpochGap_bounds :
  forall E : Z,
    0 < E ->
    0 <= maxEpochGap E <= 20 /\
    (maxEpochGap E = 0 <-> 20 < E) /\
    (forall E' : Z, E <= E' -> maxEpochGap E' <= maxEpochGap E).
Proof.
  intros E HE. rewrite (maxEpochGap_div E HE).
  assert (H0 : 0 <= 20 / E) by (apply Z.div_pos; lia).
  assert (H1 : 20 / E <= 20) by (apply Z.div_le_upper_bound; nia).
  split; [lia|]. split.
  - split.
    + intros Hz. pose proof (Z.mul_succ_div_gt 20 E HE). rewrite Hz in *. lia.
    + intros Hlt. apply Z.div_small. lia.
  - intros E' HE'. rewrite (maxEpochGap_div E') by lia.
    apply Z.div_le_compat_l; lia.
Qed.

Lemma maxEpochGap_bounds_witness :
  0 <= maxEpochGap 10 <= 20 /\ maxEpochGap 30 <= maxEpochGap 10.
Proof.
  split.
  - exact (proj1 (maxEpochGap_bounds 10 eq_refl)).
  - apply (proj2 (proj2 (maxEpochGap_bounds 10 eq_refl))). lia.
Defined.

(* ================================================================== *)
(** ** Further properties: package [filter], [Notify] *)

Lemma Notify_contentFilters_message (m : pb.WakuMessage)
    (ch : ContentFilterChan)
    (cfs : list (option pb_filter.ContentFilter)) (sends : list ChanSend) :
  Forall (fun f => f <> None) cfs ->
  Notify_contentFilters (Some m) ch cfs sends
  = Returns (tt, if topic_listed m cfs then sends ++ [(ch, Some m)] else sends).
Proof.
  induction cfs as [|f cfs IH]; intros H; [reflexivity|].
  inversion H as [|f' cfs' Hf Hrest]; subst.
  destruct f as [cf|]; [|contradiction]. simpl.
  destruct (String.eqb (pb.ContentTopic m) (pb_filter.ContentTopic cf)).
  - reflexivity.
  - simpl. apply IH. exact Hrest.
Qed.

Lemma Notify_contentFilters_nil (ch : ContentFilterChan)
    (cfs : list (option pb_filter.ContentFilter)) (sends : list ChanSend) :
  Notify_contentFilters None ch cfs sends
  = match cfs with
    | [] => Returns (tt, sends)
    | _ :: _ => Panics
    end.
Proof. destruct cfs; reflexivity. Qed.

(** X7.  For a message [m] and a map whose content filters are all
    non-nil, [Notify] returns, and what it sent is [m], once, on the
    channel of each entry that the request id selects (a non-empty id
    equal to the key) or that lists the topic of [m], in the order the
    entries were visited; no other entry is sent anything, however
    often it lists the topic. *)
Theorem Notify_sends :
  forall (filters : Filters) (m : pb.WakuMessage) (requestId : string)
         (sends : list ChanSend),
    Forall (fun e => Forall (fun f => f <> None) (ContentFilters (snd e)))
           filters ->
    Notify filters (Some m) requestId sends
    = Returns (tt, sends ++ map (fun e => (Chan (snd e), Some m))
                              (List.filter (notified requestId m) filters)).
Proof.
  induction filters as [|[key f] filters IH]; intros m requestId sends H.
  - simpl. rewrite app_nil_r. reflexivity.
  - inversion H as [|e es Hf Hrest]; subst. simpl in Hf.
    cbn [Notify List.filter]. unfold bind.
    fold (id_selects requestId key).
    assert (Hn : notified requestId m (key, f)
                 = id_selects requestId key
                   || topic_listed m (ContentFilters f)) by reflexivity.
    rewrite Hn. clear Hn.
    destruct (id_selects requestId key) eqn:E.
    + unfold chan_send. cbn [orb]. rewrite (IH m requestId _ Hrest).
      cbn [map fst snd]. rewrite <- app_assoc. reflexivity.
    + rewrite (Notify_contentFilters_message m (Chan f) _ sends Hf).
      cbn [orb]. destruct (topic_listed m (ContentFilters f)).
      * rewrite (IH m requestId _ Hrest).
        cbn [map fst snd]. rewrite <- app_assoc. reflexivity.
      * apply IH. exact Hrest.
Qed.

(** X8.  [Notify] with a nil message: if every entry is selected by
    the request id or has no content filter, it returns, having sent
    nil on the channel of each entry the request id selects; if some
    entry is not selected by the request id and has a content filter,
    it panics (the topic of a nil message is read). *)
Theorem Notify_nil_message :
  forall (filters : Filters) (requestId : string) (sends : list ChanSend),
    (Forall (fun e => id_selects requestId (fst e) = true
                      \/ ContentFilters (snd e) = []) filters ->
     Notify filters None requestId sends
     = Returns (tt, sends ++ map (fun e => (Chan (snd e), None))
                               (List.filter
                                  (fun e => id_selects requestId (fst e))
                                  filters))) /\
    (Exists (fun e => id_selects requestId (fst e) = false
                      /\ ContentFilters (snd e) <> []) filters ->
     Notify filters None requestId sends = Panics).
Proof.
  intros filters requestId. split.
  - revert sends.
    induction filters as [|[key f] filters IH]; intros sends H.
    + simpl. rewrite app_nil_r. reflexivity.
    + inversion H as [|e es He Hrest]; subst. cbn [fst snd] in He.
      cbn [Notify List.filter fst snd]. unfold bind.
      fold (id_selects requestId key).
      destruct (id_selects requestId key) eqn:E.
      * unfold chan_send. rewrite (IH _ Hrest).
        cbn [map fst snd]. rewrite <- app_assoc. reflexivity.
      * destruct He as [He|He]; [discriminate|].
        rewrite He. simpl. apply IH. exact Hrest.
  - revert sends.
    induction filters as [|[key f] filters IH]; intros sends H.
    + inversion H.
    + cbn [Notify]. unfold bind. fold (id_selects requestId key).
      destruct (id_selects requestId key) eqn:E.
      * unfold chan_send. apply IH.
        inversion H as [e es [He _]|e es Hex]; subst; [|exact Hex].
        cbn [fst] in He. congruence.
      * rewrite Notify_contentFilters_nil.
        destruct (ContentFilters f) as [|c cs] eqn:Ef; [|reflexivity].
        apply IH.
        inversion H as [e es [_ He]|e es Hex]; subst; [|exact Hex].
        cbn [snd] in He. contradiction.
Qed.

(* ================================================================== *)
(** ** Further properties: package [filter], peers and pushes *)

Section FilterHostProperties.

Variable Net : Type.
Variable Peers : Net -> list string.
Variable SupportsProtocols : string -> string -> Net -> list string * option error.
Variable NewStream : string -> Net -> Net * (option Conn * option error).
Variable WriteMsg : Conn -> pb_filter.FilterRPC -> Net -> Net * option error.
Variable GenerateRequestId : Net -> Net * list byte.

Lemma selectPeer_loop_spec (n : Net) (candidates peers : list string) :
  selectPeer_loop Net SupportsProtocols n candidates peers
  = if existsb (query_fails SupportsProtocols n) candidates then None
    else Some (peers ++ List.filter (query_supports SupportsProtocols n) candidates).
Proof.
  revert peers. induction candidates as [|p rest IH]; intros peers.
  - simpl. rewrite app_nil_r. reflexivity.
  - cbn [selectPeer_loop existsb List.filter].
    unfold query_fails at 1, query_supports at 1.
    destruct (SupportsProtocols p WakuFilterProtocolId n) as [protocols [e|]];
      cbn [fst snd orb]; [reflexivity|].
    destruct protocols as [|x xs].
    + cbn. apply IH.
    + assert (Hpos : (0 <? Z.of_nat (length (x :: xs))) = true).
      { apply Z.ltb_lt. simpl length. lia. }
      rewrite Hpos. cbn [length Nat.eqb negb].
      rewrite IH. rewrite <- app_assoc. reflexivity.
Qed.

Lemma selectPeer_spec (n : Net) :
  selectPeer Net Peers SupportsProtocols n
  = if existsb (query_fails SupportsProtocols n) (Peers n) then None
    else hd_error (List.filter (query_supports SupportsProtocols n) (Peers n)).
Proof.
  unfold selectPeer. rewrite selectPeer_loop_spec.
  destruct (existsb (query_fails SupportsProtocols n) (Peers n)); [reflexivity|].
  cbn [app].
  destruct (List.filter (query_supports SupportsProtocols n) (Peers n)) as [|p ps];
    [reflexivity|].
  assert (H : (1 <=? Z.of_nat (length (p :: ps))) = true).
  { apply Z.leb_le. simpl length. lia. }
  rewrite H. reflexivity.
Qed.

End FilterHostProperties.

(** X9.  [selectPeer] returns nil as soon as the peer store fails on
    any peer, even when a peer that supports the protocol was seen
    before; when the peer store fails on no peer, it returns the first
    peer, in peer store order, for which a protocol is listed, and nil
    if there is none. *)
Theorem selectPeer_first_supporting :
  forall (Net : Type) (Peers : Net -> list string)
         (SupportsProtocols : string -> string -> Net -> list string * option error)
         (n : Net),
    ((exists p, In p (Peers n) /\
                snd (SupportsProtocols p WakuFilterProtocolId n) <> None) ->
     selectPeer Net Peers SupportsProtocols n = None) /\
    ((forall p, In p (Peers n) ->
                snd (SupportsProtocols p WakuFilterProtocolId n) = None) ->
     selectPeer Net Peers SupportsProtocols n
     = hd_error
         (List.filter
            (fun p => negb (Nat.eqb
                              (length (fst (SupportsProtocols p
                                              WakuFilterProtocolId n))) 0))
            (Peers n))).
Proof.
  intros Net Peers SupportsProtocols n. rewrite selectPeer_spec. split.
  - intros [p [Hin Herr]].
    assert (H : existsb (query_fails SupportsProtocols n) (Peers n) = true).
    { apply existsb_exists. exists p. split; [exact Hin|].
      unfold query_fails.
      destruct (snd (SupportsProtocols p WakuFilterProtocolId n));
        [reflexivity|contradiction]. }
    rewrite H. reflexivity.
  - intros Hok.
    assert (H : existsb (query_fails SupportsProtocols n) (Peers n) = false).
    { destruct (existsb (query_fails SupportsProtocols n) (Peers n)) eqn:E;
        [|reflexivity].
      apply existsb_exists in E. destruct E as [p [Hin Hf]].
      unfold query_fails in Hf. rewrite (Hok p Hin) in Hf. discriminate. }
    rewrite H. reflexivity.
Qed.

Section PushProperties.

Variable Net : Type.
Variable NewStream : string -> Net -> Net * (option Conn * option error).
Variable WriteMsg : Conn -> pb_filter.FilterRPC -> Net -> Net * option error.

Let topic_is (m : pb.WakuMessage) (f : option pb_filter.ContentFilter) : bool :=
  match f with
  | Some cf => String.eqb (pb.ContentTopic m) (pb_filter.ContentTopic cf)
  | None => false
  end.

Let push_to (s : Subscriber) (m : pb.WakuMessage)
  : string * pb_filter.FilterRPC :=
  (peer s,
   {| pb_filter.RequestId := requestId s;
      pb_filter.Request := None;
      pb_filter.Push := Some {| pb_filter.Messages := [Some m] |} |}).

(** The content filters of one subscriber, followed by whatever comes
    next, are the pushes they call for followed by what comes next. *)
Lemma handle_contentFilters_deliver (s : Subscriber) (m : pb.WakuMessage)
    (later : list (string * pb_filter.FilterRPC))
    (next : M (Host Net) (option error)) :
  (forall h, next h = deliver Net NewStream WriteMsg later h) ->
  forall (cfs : list (option pb_filter.ContentFilter)) (h : Host Net),
    Forall (fun f => f <> None) cfs ->
    bind (handle_contentFilters Net NewStream WriteMsg s (Some m) cfs)
         (fun r => match r with
                   | Some result => ret result
                   | None => next
                   end) h
    = deliver Net NewStream WriteMsg
        (map (fun _ => push_to s m) (List.filter (topic_is m) cfs) ++ later) h.
Proof.
  intros Hnext. induction cfs as [|f cfs IH]; intros h Hcfs.
  - simpl. unfold bind, ret. apply Hnext.
  - inversion Hcfs as [|f' cfs' Hf Hrest]; subst.
    destruct f as [cf|]; [|contradiction].
    cbn [handle_contentFilters List.filter]. unfold topic_is at 1.
    destruct (String.eqb (pb.ContentTopic m) (pb_filter.ContentTopic cf)).
    + cbn [map app deliver]. unfold push_to at 1.
      specialize (IH) . unfold bind in *. unfold call_NewStream.
      destruct (NewStream (peer s) (net h)) as [n1 [conn [e|]]];
        cbn [fst snd]; [reflexivity|].
      unfold call_WriteMsg. destruct conn as [c|]; [|reflexivity].
      cbn [net traffic].
      destruct (WriteMsg c _ n1) as [n2 [e|]]; [reflexivity|].
      apply IH. exact Hrest.
    + apply IH. exact Hrest.
Qed.

Lemma handle_deliver (subs : list Subscriber) (m : pb.WakuMessage)
    (topic : string) :
  Forall (fun s => Forall (fun f => f <> None)
                     (pb_filter.ContentFilters (filter s))) subs ->
  forall h : Host Net,
    handle Net NewStream WriteMsg subs (Some m) topic h
    = deliver Net NewStream WriteMsg (pushes_for subs m topic) h.
Proof.
  induction subs as [|s subs IH]; intros Hsubs h; [reflexivity|].
  inversion Hsubs as [|s' subs' Hs Hrest]; subst.
  cbn [handle pushes_for flat_map].
  destruct (negb (String.eqb (pb_filter.Topic (filter s)) "")
            && negb (String.eqb (pb_filter.Topic (filter s)) topic)).
  - cbn [app]. apply IH. exact Hrest.
  - apply (handle_contentFilters_deliver s m (pushes_for subs m topic)
             (handle Net NewStream WriteMsg subs (Some m) topic)
             (IH Hrest) _ h Hs).
Qed.

(** What a run of [deliver] leaves in the traffic: calls that did not
    fail, then at most one that did; the error returned is that of a
    failed [NewStream], and a failed [WriteMsg] returns none. *)
Lemma deliver_traffic (pushes : list (string * pb_filter.FilterRPC)) :
  forall (h h' : Host Net) (r : option error),
    deliver Net NewStream WriteMsg pushes h = Returns (r, h') ->
    exists pre,
      Forall (fun ev => net_failed ev = false) pre /\
      ((traffic h' = traffic h ++ pre /\ r = None /\
        length pre = (2 * length pushes)%nat)
       \/ (exists p c e,
              traffic h' = traffic h ++ pre ++ [EvNewStream p c (Some e)] /\
              r = Some e)
       \/ (exists c rpc e,
              traffic h' = traffic h ++ pre ++ [EvWriteMsg c rpc (Some e)] /\
              r = None)).
Proof.
  induction pushes as [|[p rpc] pushes IH]; intros h h' r H.
  - injection H as <- <-. exists []. split; [constructor|].
    left. rewrite app_nil_r. repeat split.
  - cbn [deliver] in H. unfold bind, call_NewStream in H.
    destruct (NewStream p (net h)) as [n1 [conn [e|]]]; cbn [fst snd] in H.
    + injection H as <- <-. exists []. split; [constructor|].
      right. left. exists p, conn, e. split; reflexivity.
    + unfold call_WriteMsg in H. destruct conn as [c|]; [|discriminate].
      cbn [net traffic] in H.
      destruct (WriteMsg c rpc n1) as [n2 [e|]].
      * injection H as <- <-.
        exists [EvNewStream p (Some c) None]. split; [repeat constructor|].
        right. right. exists c, rpc, e. cbn [traffic].
        rewrite <- !app_assoc. split; reflexivity.
      * destruct (IH _ _ _ H) as [pre [Hpre Hshape]]. cbn [traffic] in Hshape.
        exists ([EvNewStream p (Some c) None; EvWriteMsg c rpc None] ++ pre).
        split; [repeat constructor; exact Hpre|].
        destruct Hshape as [[Ht [Hr Hlen]]|[[p' [c' [e' [Ht Hr]]]]
                                           |[c' [rpc' [e' [Ht Hr]]]]]].
        -- left. rewrite Ht, <- !app_assoc. split; [reflexivity|].
           split; [exact Hr|]. simpl length. rewrite Hlen. lia.
        -- right. left. exists p', c', e'. rewrite Ht, <- !app_assoc.
           split; [reflexivity|exact Hr].
        -- right. right. exists c', rpc', e'. rewrite Ht, <- !app_assoc.
           split; [reflexivity|exact Hr].
Qed.

End PushProperties.

(** X10.  For a message [m] and subscribers whose content filters are
    all non-nil, [handle] is the delivery, in order, of the pushes the
    message calls for: subscribers are served in list order, those with
    another pubsub topic are skipped, and a subscriber gets one push per
    content filter that has the topic of [m] (two if it lists the topic
    twice); delivery stops at the first stream that cannot be opened or
    write that fails. *)
Theorem handle_delivers_pushes :
  forall (Net : Type)
         (NewStream : string -> Net -> Net * (option Conn * option error))
         (WriteMsg : Conn -> pb_filter.FilterRPC -> Net -> Net * option error)
         (subs : list Subscriber) (m : pb.WakuMessage) (topic : string)
         (h : Host Net),
    Forall (fun s => Forall (fun f => f <> None)
                       (pb_filter.ContentFilters (filter s))) subs ->
    handle Net NewStream WriteMsg subs (Some m) topic h
    = deliver Net NewStream WriteMsg (pushes_for subs m topic) h.
Proof.
  intros Net NewStream WriteMsg subs m topic h H.
  apply handle_deliver. exact H.
Qed.

(** X11.  Under the same conditions, when [handle] returns, the
    network calls it made are calls that did not fail followed by at
    most one that did.  If all succeeded, there are two calls per push
    and no error is returned.  If a stream could not be opened, its
    error is returned.  If a write failed, no error is returned: the
    subscribers not yet served are dropped silently. *)
Theorem handle_failures :
  forall (Net : Type)
         (NewStream : string -> Net -> Net * (option Conn * option error))
         (WriteMsg : Conn -> pb_filter.FilterRPC -> Net -> Net * option error)
         (subs : list Subscriber) (m : pb.WakuMessage) (topic : string)
         (h h' : Host Net) (r : option error),
    Forall (fun s => Forall (fun f => f <> None)
                       (pb_filter.ContentFilters (filter s))) subs ->
    handle Net NewStream WriteMsg subs (Some m) topic h = Returns (r, h') ->
    exists pre,
      Forall (fun ev => net_failed ev = false) pre /\
      ((traffic h' = traffic h ++ pre /\ r = None /\
        length pre = (2 * length (pushes_for subs m topic))%nat)
       \/ (exists p c e,
              traffic h' = traffic h ++ pre ++ [EvNewStream p c (Some e)] /\
              r = Some e)
       \/ (exists c rpc e,
              traffic h' = traffic h ++ pre ++ [EvWriteMsg c rpc (Some e)] /\
              r = None)).
Proof.
  intros Net NewStream WriteMsg subs m topic h h' r Hsubs Hrun.
  rewrite (handle_deliver Net NewStream WriteMsg subs m topic Hsubs h) in Hrun.
  exact (deliver_traffic Net NewStream WriteMsg _ h h' r Hrun).
Qed.

(* ================================================================== *)
(** ** Further properties: package [filter], requests *)

Lemma hex_EncodeToString_length (src : list byte) :
  String.length (hex_EncodeToString src) = (2 * length src)%nat.
Proof.
  induction src as [|b src IH]; [reflexivity|].
  cbn [hex_EncodeToString String.length length]. rewrite IH. lia.
Qed.

Lemma string_of_list_byte_length (src : list byte) :
  String.length (string_of_list_byte src) = length src.
Proof.
  unfold string_of_list_byte.
  induction src as [|b src IH]; [reflexivity|].
  simpl. rewrite IH. reflexivity.
Qed.

(** X12.  [Subscribe] with a peer [p] selected and a stream [c] opened
    to it: a fresh id is drawn and one request is written on [c]; the
    error returned is nil whatever [NewStream] returned as error and
    whatever the write returned.  The id returned is the string of the
    raw bytes, while the [RequestId] written is their hexadecimal
    encoding, twice as long: for a non-empty id the two differ. *)
Theorem Subscribe_with_stream :
  forall (Net : Type) (Peers : Net -> list string)
         (SupportsProtocols : string -> string -> Net -> list string * option error)
         (NewStream : string -> Net -> Net * (option Conn * option error))
         (WriteMsg : Conn -> pb_filter.FilterRPC -> Net -> Net * option error)
         (GenerateRequestId : Net -> Net * list byte)
         (request : pb_filter.FilterRequest) (h : Host Net)
         (p : string) (c : Conn) (e werr : option error) (id : list byte)
         (n1 n2 n3 : Net),
    selectPeer Net Peers SupportsProtocols (net h) = Some p ->
    NewStream p (net h) = (n1, (Some c, e)) ->
    GenerateRequestId n1 = (n2, id) ->
    WriteMsg c {| pb_filter.RequestId := hex_EncodeToString id;
                  pb_filter.Request := Some request;
                  pb_filter.Push := None |} n2 = (n3, werr) ->
    Subscribe Net Peers SupportsProtocols NewStream WriteMsg GenerateRequestId
      request h
    = Returns ((string_of_list_byte id, None),
               {| net := n3;
                  traffic :=
                    traffic h ++
                    [EvNewStream p (Some c) e;
                     EvWriteMsg c {| pb_filter.RequestId := hex_EncodeToString id;
                                     pb_filter.Request := Some request;
                                     pb_filter.Push := None |} werr] |})
    /\ String.length (hex_EncodeToString id)
       = (2 * String.length (string_of_list_byte id))%nat
    /\ (id <> [] -> string_of_list_byte id <> hex_EncodeToString id).
Proof.
  intros Net Peers SupportsProtocols NewStream WriteMsg GenerateRequestId
         request h p c e werr id n1 n2 n3 Hpeer Hstream Hid Hwrite.
  split; [|split].
  - unfold Subscribe. rewrite Hpeer.
    unfold bind, call_NewStream. rewrite Hstream. cbn [fst snd].
    unfold call_GenerateRequestId. cbn [net traffic]. rewrite Hid.
    unfold call_WriteMsg. cbn [net traffic]. rewrite Hwrite.
    unfold ret. rewrite <- app_assoc. reflexivity.
  - rewrite hex_EncodeToString_length, string_of_list_byte_length. reflexivity.
  - intros Hne Heq.
    assert (Hlen : String.length (string_of_list_byte id)
                   = String.length (hex_EncodeToString id))
      by (rewrite Heq; reflexivity).
    rewrite hex_EncodeToString_length, string_of_list_byte_length in Hlen.
    destruct id; [contradiction|]. simpl in Hlen. lia.
Qed.

(** X13.  [Subscribe] without a usable stream: when no peer is
    selected it makes no network call and returns the empty id with a
    nil error; when the stream opened is nil it returns the empty id
    with the error of [NewStream], and nothing is written. *)
Theorem Subscribe_without_stream :
  forall (Net : Type) (Peers : Net -> list string)
         (SupportsProtocols : string -> string -> Net -> list string * option error)
         (NewStream : string -> Net -> Net * (option Conn * option error))
         (WriteMsg : Conn -> pb_filter.FilterRPC -> Net -> Net * option error)
         (GenerateRequestId : Net -> Net * list byte)
         (request : pb_filter.FilterRequest) (h : Host Net),
    (selectPeer Net Peers SupportsProtocols (net h) = None ->
     Subscribe Net Peers SupportsProtocols NewStream WriteMsg GenerateRequestId
       request h = Returns ((EmptyString, None), h)) /\
    (forall (p : string) (n1 : Net) (e : option error),
        selectPeer Net Peers SupportsProtocols (net h) = Some p ->
        NewStream p (net h) = (n1, (None, e)) ->
        Subscribe Net Peers SupportsProtocols NewStream WriteMsg
          GenerateRequestId request h
        = Returns ((EmptyString, e),
                   {| net := n1;
                      traffic := traffic h ++ [EvNewStream p None e] |})).
Proof.
  intros Net Peers SupportsProtocols NewStream WriteMsg GenerateRequestId
         request h.
  split.
  - intros Hpeer. unfold Subscribe. rewrite Hpeer. reflexivity.
  - intros p n1 e Hpeer Hstream. unfold Subscribe. rewrite Hpeer.
    unfold bind, call_NewStream. rewrite Hstream. reflexivity.
Qed.

(** X14.  [Unsubscribe] does to the network exactly what [Subscribe]
    does with the same request: the same peer, the same stream, a fresh
    id and the same message written; only the [Subscribe] flag of the
    request, set by the caller, tells the two apart.  It reports
    nothing. *)
Theorem Unsubscribe_like_Subscribe :
  forall (Net : Type) (Peers : Net -> list string)
         (SupportsProtocols : string -> string -> Net -> list string * option error)
         (NewStream : string -> Net -> Net * (option Conn * option error))
         (WriteMsg : Conn -> pb_filter.FilterRPC -> Net -> Net * option error)
         (GenerateRequestId : Net -> Net * list byte)
         (request : pb_filter.FilterRequest) (h : Host Net),
    match Subscribe Net Peers SupportsProtocols NewStream WriteMsg
            GenerateRequestId request h with
    | Returns (_, h1) =>
        Unsubscribe Net Peers SupportsProtocols NewStream WriteMsg
          GenerateRequestId request h = Returns (tt, h1)
    | Panics =>
        Unsubscribe Net Peers SupportsProtocols NewStream WriteMsg
          GenerateRequestId request h = Panics
    end.
Proof.
  intros Net Peers SupportsProtocols NewStream WriteMsg GenerateRequestId
         request h.
  unfold Subscribe, Unsubscribe.
  destruct (selectPeer Net Peers SupportsProtocols (net h)) as [p|];
    [|reflexivity].
  unfold bind, call_NewStream.
  destruct (NewStream p (net h)) as [n1 [[c|] e]]; cbn [fst snd];
    [|reflexivity].
  unfold call_GenerateRequestId. cbn [net traffic].
  destruct (GenerateRequestId n1) as [n2 id].
  unfold call_WriteMsg. cbn [net traffic].
  destruct (WriteMsg c _ n2) as [n3 werr]. reflexivity.
Qed.

(** X15.  [onRequest] never removes or reorders a subscriber: when it
    returns, the subscribers it had are a prefix of those it has, and at
    most one was added.  One is added exactly when the request was read
    without error and is a subscription ([Subscribe] set); then it is
    the remote peer with the request id read.  An unsubscription
    changes nothing.  The push handler is called at most once, and only
    for a message without a request. *)
Theorem onRequest_appends :
  forall (wf wf' : WakuFilter) (rpc : pb_filter.FilterRPC)
         (err : option error) (remotePeer : string)
         (calls calls' : list HandlerCall),
    onRequest wf rpc err remotePeer calls = Returns (wf', calls') ->
    exists added pushed,
      subscribers wf' = subscribers wf ++ added /\
      calls' = calls ++ pushed /\
      (added = [] \/
       exists request,
         err = None /\ pb_filter.Request rpc = Some request /\
         pb_filter.Subscribe request = true /\
         added = [{| peer := remotePeer;
                     requestId := pb_filter.RequestId rpc;
                     filter := request |}]) /\
      (err = None ->
       forall request,
         pb_filter.Request rpc = Some request ->
         (pb_filter.Subscribe request = true -> added <> []) /\
         (pb_filter.Subscribe request = false -> added = []) /\
         pushed = []) /\
      (pushed = [] \/
       exists push,
         err = None /\ pb_filter.Request rpc = None /\
         pb_filter.Push rpc = Some push /\
         pushed = [(pb_filter.RequestId rpc, push)]).
Proof.
  intros wf wf' rpc err remotePeer calls calls' H.
  unfold onRequest in H.
  destruct err as [e|].
  - injection H as <- <-. exists [], []. rewrite !app_nil_r.
    split; [reflexivity|]. split; [reflexivity|].
    split; [left; reflexivity|].
    split; [discriminate|left; reflexivity].
  - destruct (pb_filter.Request rpc) as [request|] eqn:Hreq.
    + destruct (pb_filter.Subscribe request) eqn:Hsub.
      * injection H as <- <-.
        exists [{| peer := remotePeer;
                   requestId := pb_filter.RequestId rpc;
                   filter := request |}], [].
        rewrite app_nil_r.
        split; [reflexivity|]. split; [reflexivity|].
        split; [right; exists request; repeat split; assumption|].
        split; [|left; reflexivity].
        intros _ request' Heq. injection Heq as <-.
        split; [discriminate|]. split; [congruence|reflexivity].
      * injection H as <- <-. exists [], []. rewrite !app_nil_r.
        split; [reflexivity|]. split; [reflexivity|].
        split; [left; reflexivity|].
        split; [|left; reflexivity].
        intros _ request' Heq. injection Heq as <-.
        split; [congruence|]. split; reflexivity.
    + destruct (pb_filter.Push rpc) as [push|] eqn:Hpush.
      * destruct (pushHandler wf); [|discriminate].
        injection H as <- <-.
        exists [], [(pb_filter.RequestId rpc, push)]. rewrite app_nil_r.
        split; [reflexivity|]. split; [reflexivity|].
        split; [left; reflexivity|].
        split; [intros _ request Heq; discriminate|].
        right. exists push. repeat split.
      * injection H as <- <-. exists [], []. rewrite !app_nil_r.
        split; [reflexivity|]. split; [reflexivity|].
        split; [left; reflexivity|].
        split; [intros _ request Heq; discriminate|left; reflexivity].
Qed.

(* ================================================================== *)
(** ** Runs of the filter functions on the bench *)

Lemma bench_filters_non_nil :
  Forall (fun e => Forall (fun f => f <> None) (ContentFilters (snd e)))
         bench_filters.
Proof. repeat constructor; discriminate. Defined.

Lemma bench_subscribers_non_nil :
  Forall (fun s => Forall (fun f => f <> None)
                     (pb_filter.ContentFilters (filter s))) bench_subscribers.
Proof. repeat constructor; discriminate. Defined.

Lemma Notify_sends_witness :
  Notify bench_filters (Some bench_message) "req2"%string []
  = Returns (tt, [(1%nat, Some bench_message); (2%nat, Some bench_message)]).
Proof.
  exact (Notify_sends bench_filters bench_message "req2"%string []
           bench_filters_non_nil).
Defined.

Lemma Notify_nil_message_witness :
  Notify bench_filters None "req1"%string [] = Panics
  /\ Notify [("req2"%string, {| ContentFilters := []; Chan := 2%nat |})]
       None "req1"%string [] = Returns (tt, []).
Proof.
  split.
  - apply (proj2 (Notify_nil_message bench_filters "req1"%string [])).
    apply Exists_cons_tl. apply Exists_cons_tl. apply Exists_cons_hd.
    split; [reflexivity|discriminate].
  - refine (proj1 (Notify_nil_message
                     [("req2"%string, {| ContentFilters := []; Chan := 2%nat |})]
                     "req1"%string []) _).
    constructor; [right; reflexivity|constructor].
Defined.

Lemma selectPeer_first_supporting_witness :
  selectPeer BenchNet bench_Peers bench_SupportsProtocols (net (bench_host 0))
  = Some "bob"%string.
Proof.
  apply (proj2 (selectPeer_first_supporting BenchNet bench_Peers
                  bench_SupportsProtocols (net (bench_host 0)))).
  intros p Hin. simpl in Hin.
  destruct Hin as [<-|[<-|[<-|[]]]]; reflexivity.
Defined.

Lemma handle_delivers_pushes_witness :
  exists h',
    handle BenchNet bench_NewStream bench_WriteMsg bench_subscribers
      (Some bench_message) "pubsub"%string (bench_host 5)
    = Returns (None, h')
    /\ map (fun ev => match ev with
                      | EvNewStream p _ _ => p
                      | EvWriteMsg _ rpc _ => pb_filter.RequestId rpc
                      end) (traffic h')
       = ["bob"; "r1"; "bob"; "r1"; "carol"; "r3"]%string.
Proof.
  rewrite (handle_delivers_pushes BenchNet bench_NewStream bench_WriteMsg
             bench_subscribers bench_message "pubsub"%string (bench_host 5)
             bench_subscribers_non_nil).
  eexists. split; reflexivity.
Defined.

Lemma handle_failures_witness :
  exists h' r,
    handle BenchNet bench_NewStream bench_WriteMsg bench_subscribers
      (Some bench_message) "pubsub"%string (bench_host 1)
    = Returns (r, h')
    /\ length (traffic h') = 4%nat
    /\ exists pre,
         Forall (fun ev => net_failed ev = false) pre /\
         ((traffic h' = traffic (bench_host 1) ++ pre /\ r = None /\
           length pre
           = (2 * length (pushes_for bench_subscribers bench_message
                            "pubsub"%string))%nat)
          \/ (exists p c e,
                 traffic h'
                 = traffic (bench_host 1) ++ pre ++ [EvNewStream p c (Some e)] /\
                 r = Some e)
          \/ (exists c rpc e,
                 traffic h'
                 = traffic (bench_host 1) ++ pre ++ [EvWriteMsg c rpc (Some e)] /\
                 r = None)).
Proof.
  eexists. eexists. split; [reflexivity|]. split; [reflexivity|].
  exact (handle_failures BenchNet bench_NewStream bench_WriteMsg
           bench_subscribers bench_message "pubsub"%string (bench_host 1) _ _
           bench_subscribers_non_nil eq_refl).
Defined.

Lemma Subscribe_with_stream_witness :
  exists h',
    Subscribe BenchNet bench_Peers bench_SupportsProtocols bench_NewStream
      bench_WriteMsg bench_GenerateRequestId bench_request (bench_host 0)
    = Returns ((string_of_list_byte [x01; xab], None), h')
    /\ map net_failed (traffic h') = [false; true]
    /\ hex_EncodeToString [x01; xab] = "01ab"%string.
Proof.
  eexists. split.
  - exact (proj1 (Subscribe_with_stream BenchNet bench_Peers
                    bench_SupportsProtocols bench_NewStream bench_WriteMsg
                    bench_GenerateRequestId bench_request (bench_host 0)
                    "bob"%string 0%nat None
                    (Some (errors_New "stream reset"%string)) [x01; xab]
                    _ _ _ eq_refl eq_refl eq_refl eq_refl)).
  - split; reflexivity.
Defined.

Lemma onRequest_appends_witness :
  exists wf',
    onRequest {| subscribers := bench_subscribers; pushHandler := true |}
      {| pb_filter.RequestId := "r4"%string;
         pb_filter.Request := Some bench_request;
         pb_filter.Push := None |} None "dave"%string []
    = Returns (wf', [])
    /\ length (subscribers wf') = 4%nat
    /\ exists (added : list Subscriber) (pushed : list HandlerCall),
         subscribers wf' = bench_subscribers ++ added /\ [] = [] ++ pushed.
Proof.
  eexists. split; [cbv; reflexivity|]. split; [reflexivity|].
  destruct (onRequest_appends
              {| subscribers := bench_subscribers; pushHandler := true |} _
              {| pb_filter.RequestId := "r4"%string;
                 pb_filter.Request := Some bench_request;
                 pb_filter.Push := None |} None "dave"%string [] [] eq_refl)
    as [added [pushed [Hsubs [Hcalls _]]]].
  exists added, pushed. split; [exact Hsubs|exact Hcalls].
Defined.

(* ================================================================== *)
(** ** Further properties: package [node], choosing addresses *)

Lemma filter_head_in {A : Type} (f : A -> bool) (l : list A) (a : A)
    (rest : list A) :
  List.filter f l = a :: rest -> In a l /\ f a = true.
Proof.
  intros H. apply filter_In. rewrite H. left. reflexivity.
Qed.

Lemma filter_nil_all {A : Type} (f : A -> bool) (l : list A) :
  List.filter f l = [] <-> (forall x, In x l -> f x = false).
Proof.
  split.
  - intros H x Hin. destruct (f x) eqn:E; [|reflexivity].
    assert (Hx : In x (List.filter f l)) by (apply filter_In; auto).
    rewrite H in Hx. contradiction.
  - intros H. induction l as [|x l IH]; [reflexivity|].
    simpl. rewrite (H x (or_introl eq_refl)). apply IH.
    intros y Hy. apply H. right. exact Hy.
Qed.

Lemma filterIP_loop_filter (ss : list net_TCPAddr) (fn : net_TCPAddr -> bool)
    (acc : list net_TCPAddr) :
  filterIP_loop ss fn acc = acc ++ List.filter fn ss.
Proof.
  revert acc. induction ss as [|s ss IH]; intros acc; simpl.
  - rewrite app_nil_r. reflexivity.
  - destruct (fn s); rewrite IH; [rewrite <- app_assoc|]; reflexivity.
Qed.

Lemma filterIP_filter (ss : list net_TCPAddr) (fn : net_TCPAddr -> bool) :
  filterIP ss fn = List.filter fn ss.
Proof. unfold filterIP. apply filterIP_loop_filter. Qed.

Section ENRProperties.

Variable Multiaddr : Type.
Variable ValueForProtocol : Multiaddr -> ma_Protocol -> string * option error.
Variable Bytes : Multiaddr -> list byte.
Variable NewMultiaddr : string -> Multiaddr * option error.
Variable Decapsulate : Multiaddr -> Multiaddr -> Multiaddr.
Variable SplitFunc_circuit : Multiaddr -> Multiaddr.
Variable ResolveIPAddr : string -> string -> string * option error.
Variable Atoi : string -> Z * option error.
Variable ParseIP : string -> net_IP.
Variable IsPrivate : net_IP -> bool.
Variable IsLoopback : net_IP -> bool.
Variable IsUnspecified : net_IP -> bool.
Variable To4 : net_IP -> net_IP.
Variable To16 : net_IP -> net_IP.

Local Abbreviation extract :=
  (extractIPAddressForENR Multiaddr ValueForProtocol ResolveIPAddr Atoi ParseIP).
Local Abbreviation extracted :=
  (extract_all Multiaddr ValueForProtocol ResolveIPAddr Atoi ParseIP).
Local Abbreviation selectMost :=
  (selectMostExternalAddress Multiaddr ValueForProtocol ResolveIPAddr Atoi
     ParseIP IsPrivate IsLoopback IsUnspecified).
Local Abbreviation external := (isExternal IsPrivate IsLoopback IsUnspecified).
Local Abbreviation wss_loop :=
  (selectWSSListenAddresses_loop Multiaddr ValueForProtocol NewMultiaddr
     Decapsulate).
Local Abbreviation circuit_loop :=
  (selectCircuitRelayListenAddresses_loop Multiaddr ValueForProtocol
     SplitFunc_circuit).
Local Abbreviation selectWSS :=
  (selectWSSListenAddresses Multiaddr ValueForProtocol NewMultiaddr Decapsulate).
Local Abbreviation selectCircuit :=
  (selectCircuitRelayListenAddresses Multiaddr ValueForProtocol
     SplitFunc_circuit).
Local Abbreviation getENR :=
  (getENRAddresses Multiaddr ValueForProtocol NewMultiaddr Decapsulate
     SplitFunc_circuit ResolveIPAddr Atoi ParseIP IsPrivate IsLoopback
     IsUnspecified).

Lemma extract_all_in (addresses : list Multiaddr) (acc : list net_TCPAddr)
    (b : net_TCPAddr) :
  In b (extracted addresses acc)
  <-> In b acc \/ exists addr, In addr addresses /\ extract addr = inl b.
Proof.
  revert acc. induction addresses as [|addr rest IH]; intros acc.
  - simpl. split; [auto|]. intros [H|[addr [[] _]]]. exact H.
  - cbn [extract_all]. destruct (extract addr) as [a|e] eqn:E.
    + rewrite IH, in_app_iff. simpl. split.
      * intros [[H|[<-|[]]]|[x [Hx Hex]]]; [left; exact H | |].
        -- right. exists addr. split; [left; reflexivity|exact E].
        -- right. exists x. split; [right; exact Hx|exact Hex].
      * intros [H|[x [[<-|Hx] Hex]]]; [left; left; exact H | |].
        -- left. right. left. congruence.
        -- right. exists x. split; assumption.
    + rewrite IH. simpl. split.
      * intros [H|[x [Hx Hex]]]; [left; exact H|].
        right. exists x. split; [right; exact Hx|exact Hex].
      * intros [H|[x [[<-|Hx] Hex]]]; [left; exact H | congruence |].
        right. exists x. split; assumption.
Qed.

Lemma extracted_in (addresses : list Multiaddr) (b : net_TCPAddr) :
  In b (extracted addresses [])
  <-> exists addr, In addr addresses /\ extract addr = inl b.
Proof.
  rewrite extract_all_in. simpl. split; [intros [[]|H]; exact H|auto].
Qed.

(** X16.  When [extractIPAddressForENR] returns an address, the
    multiaddress has no circuit, ws or wss component, its tcp component
    parses to the port returned, and the IP returned is parsed from the
    resolution of its dns4 component if it has one, and from its ip4
    component only if it has no dns4 component. *)
Theorem extractIPAddressForENR_accepts :
  forall (addr : Multiaddr) (a : net_TCPAddr),
    extract addr = inl a ->
    snd (ValueForProtocol addr P_CIRCUIT) <> None /\
    snd (ValueForProtocol addr P_WS) <> None /\
    snd (ValueForProtocol addr P_WSS) <> None /\
    (exists portStr,
        ValueForProtocol addr P_TCP = (portStr, None) /\
        Atoi portStr = (Port a, None)) /\
    ((exists dns4 ipStr,
         ValueForProtocol addr P_DNS4 = (dns4, None) /\
         ResolveIPAddr "ip4" dns4 = (ipStr, None) /\
         IP a = ParseIP ipStr)
     \/
     (snd (ValueForProtocol addr P_DNS4) <> None /\
      exists ipStr,
        ValueForProtocol addr P_IP4 = (ipStr, None) /\
        IP a = ParseIP ipStr)).
Proof.
  intros addr a H. unfold extractIPAddressForENR in H.
  destruct (snd (ValueForProtocol addr P_CIRCUIT)) as [e1|]; [|discriminate].
  destruct (snd (ValueForProtocol addr P_WS)) as [e2|]; [|discriminate].
  destruct (snd (ValueForProtocol addr P_WSS)) as [e3|]; [|discriminate].
  split; [discriminate|]. split; [discriminate|]. split; [discriminate|].
  destruct (ValueForProtocol addr P_DNS4) as [dns4 [e4|]] eqn:Hdns.
  - destruct (ValueForProtocol addr P_IP4) as [ipStr [e5|]] eqn:Hip;
      [discriminate|].
    destruct (ValueForProtocol addr P_TCP) as [portStr [e6|]] eqn:Htcp;
      [discriminate|].
    destruct (Atoi portStr) as [port [e7|]] eqn:Hport; [discriminate|].
    injection H as <-. split.
    + exists portStr. split; [reflexivity|exact Hport].
    + right. split; [discriminate|]. exists ipStr. split; reflexivity.
  - destruct (ResolveIPAddr "ip4" dns4) as [ipStr [e5|]] eqn:Hres;
      [discriminate|].
    destruct (ValueForProtocol addr P_TCP) as [portStr [e6|]] eqn:Htcp;
      [discriminate|].
    destruct (Atoi portStr) as [port [e7|]] eqn:Hport; [discriminate|].
    injection H as <-. split.
    + exists portStr. split; [reflexivity|exact Hport].
    + left. exists dns4, ipStr. repeat split. exact Hres.
Qed.

(** X17.  The address [selectMostExternalAddress] returns is extracted
    from one of the multiaddresses given, and is of the best class
    there is: an external address; or, only if none of the addresses
    extracted is external, a private one; or, only if none is external
    or private, a loopback one. *)
Theorem selectMostExternalAddress_preference :
  forall (addresses : list Multiaddr) (a : net_TCPAddr),
    selectMost addresses = inl a ->
    (exists addr, In addr addresses /\ extract addr = inl a) /\
    (external a = true
     \/ ((forall addr b, In addr addresses -> extract addr = inl b ->
                         external b = false) /\
         (isPrivate IsPrivate a = true
          \/ ((forall addr b, In addr addresses -> extract addr = inl b ->
                              isPrivate IsPrivate b = false) /\
              isLoopback IsLoopback a = true)))).
Proof.
  intros addresses a H. unfold selectMostExternalAddress in H.
  cbv zeta in H. rewrite !filterIP_filter in H.
  destruct (List.filter external (extracted addresses [])) as [|x xs] eqn:E1.
  - assert (Hno_ext : forall addr b, In addr addresses ->
                                     extract addr = inl b -> external b = false).
    { intros addr b Hin Hb. apply (proj1 (filter_nil_all _ _) E1).
      apply extracted_in. exists addr. split; assumption. }
    destruct (List.filter (isPrivate IsPrivate) (extracted addresses []))
      as [|y ys] eqn:E2.
    + destruct (List.filter (isLoopback IsLoopback) (extracted addresses []))
        as [|z zs] eqn:E3; [discriminate|].
      injection H as <-. destruct (filter_head_in _ _ _ _ E3) as [Hin Hl].
      split; [apply extracted_in; exact Hin|].
      right. split; [exact Hno_ext|]. right. split; [|exact Hl].
      intros addr b Hin' Hb. apply (proj1 (filter_nil_all _ _) E2).
      apply extracted_in. exists addr. split; assumption.
    + injection H as <-. destruct (filter_head_in _ _ _ _ E2) as [Hin Hp].
      split; [apply extracted_in; exact Hin|].
      right. split; [exact Hno_ext|]. left. exact Hp.
  - injection H as <-. destruct (filter_head_in _ _ _ _ E1) as [Hin He].
    split; [apply extracted_in; exact Hin|]. left. exact He.
Qed.

(** X18.  [selectMostExternalAddress] fails, with the error "could not
    obtain ip address", exactly when every address that can be
    extracted is an unspecified address that is neither private nor
    loopback; in particular when no address can be extracted. *)
Theorem selectMostExternalAddress_fails :
  forall (addresses : list Multiaddr) (e : error),
    selectMost addresses = inr e
    <-> (e = errors_New "could not obtain ip address"%string /\
         forall addr b, In addr addresses -> extract addr = inl b ->
                        IsPrivate (IP b) = false /\
                        IsLoopback (IP b) = false /\
                        IsUnspecified (IP b) = true).
Proof.
  intros addresses e. unfold selectMostExternalAddress. cbv zeta.
  rewrite !filterIP_filter. split.
  - intros H.
    destruct (List.filter external (extracted addresses [])) eqn:E1;
      [|discriminate].
    destruct (List.filter (isPrivate IsPrivate) (extracted addresses []))
      eqn:E2; [|discriminate].
    destruct (List.filter (isLoopback IsLoopback) (extracted addresses []))
      eqn:E3; [|discriminate].
    injection H as <-. split; [reflexivity|].
    intros addr b Hin Hb.
    assert (Hb' : In b (extracted addresses []))
      by (apply extracted_in; exists addr; split; assumption).
    pose proof (proj1 (filter_nil_all _ _) E1 b Hb') as H1.
    pose proof (proj1 (filter_nil_all _ _) E2 b Hb') as H2.
    pose proof (proj1 (filter_nil_all _ _) E3 b Hb') as H3.
    unfold isExternal, isPrivate, isLoopback in *.
    rewrite H2, H3 in H1. simpl in H1.
    repeat split; try assumption.
    destruct (IsUnspecified (IP b)); [reflexivity|discriminate].
  - intros [-> Hall].
    assert (H1 : List.filter external (extracted addresses []) = []).
    { apply filter_nil_all. intros b Hb. apply extracted_in in Hb.
      destruct Hb as [addr [Hin Hb]].
      destruct (Hall addr b Hin Hb) as (_ & _ & Hu).
      unfold isExternal. rewrite Hu. apply andb_false_r. }
    assert (H2 : List.filter (isPrivate IsPrivate) (extracted addresses []) = []).
    { apply filter_nil_all. intros b Hb. apply extracted_in in Hb.
      destruct Hb as [addr [Hin Hb]].
      destruct (Hall addr b Hin Hb) as (Hp & _ & _). exact Hp. }
    assert (H3 : List.filter (isLoopback IsLoopback) (extracted addresses []) = []).
    { apply filter_nil_all. intros b Hb. apply extracted_in in Hb.
      destruct Hb as [addr [Hin Hb]].
      destruct (Hall addr b Hin Hb) as (_ & Hl & _). exact Hl. }
    rewrite H1, H2, H3. reflexivity.
Qed.

Lemma listen_loops_length (addresses acc1 acc2 : list Multiaddr) :
  (length (wss_loop addresses acc1) + length (circuit_loop addresses acc2)
   <= length acc1 + length acc2 + length addresses)%nat.
Proof.
  revert acc1 acc2. induction addresses as [|addr rest IH]; intros acc1 acc2.
  - simpl. lia.
  - cbn [selectWSSListenAddresses_loop selectCircuitRelayListenAddresses_loop].
    unfold decapsulateCircuitRelayAddr.
    destruct (snd (ValueForProtocol addr P_CIRCUIT)) as [e|].
    + destruct (snd (ValueForProtocol addr P_DNS4));
        [specialize (IH acc1 acc2); simpl; lia|].
      destruct (snd (ValueForProtocol addr P_WSS));
        [specialize (IH acc1 acc2); simpl; lia|].
      destruct (decapsulateP2P Multiaddr ValueForProtocol NewMultiaddr
                  Decapsulate addr).
      * specialize (IH (acc1 ++ [m]) acc2). rewrite length_app in IH.
        simpl in *. lia.
      * specialize (IH acc1 acc2). simpl. lia.
    + specialize (IH acc1 (acc2 ++ [SplitFunc_circuit addr])).
      rewrite length_app in IH. simpl in *. lia.
Qed.

(** X19.  [getENRAddresses] fails exactly when
    [selectMostExternalAddress] fails, with the same error.  Otherwise
    it returns the address selected and the wss addresses followed by
    the circuit relay addresses; no input is counted twice, so there
    are at most as many of them as multiaddresses given. *)
Theorem getENRAddresses_result :
  forall addrs : list Multiaddr,
    (forall e,
        getENRAddresses Multiaddr ValueForProtocol NewMultiaddr Decapsulate
          SplitFunc_circuit ResolveIPAddr Atoi ParseIP IsPrivate IsLoopback
          IsUnspecified addrs = inr e
        <-> selectMostExternalAddress Multiaddr ValueForProtocol ResolveIPAddr
              Atoi ParseIP IsPrivate IsLoopback IsUnspecified addrs = inr e) /\
    (forall extAddr multiaddr,
        getENRAddresses Multiaddr ValueForProtocol NewMultiaddr Decapsulate
          SplitFunc_circuit ResolveIPAddr Atoi ParseIP IsPrivate IsLoopback
          IsUnspecified addrs = inl (extAddr, multiaddr) ->
        selectMostExternalAddress Multiaddr ValueForProtocol ResolveIPAddr
          Atoi ParseIP IsPrivate IsLoopback IsUnspecified addrs = inl extAddr /\
        multiaddr
        = fst (selectWSSListenAddresses Multiaddr ValueForProtocol NewMultiaddr
                 Decapsulate addrs)
          ++ fst (selectCircuitRelayListenAddresses Multiaddr ValueForProtocol
                    SplitFunc_circuit addrs) /\
        (length multiaddr <= length addrs)%nat).
Proof.
  intros addrs. unfold getENRAddresses.
  unfold selectWSSListenAddresses, selectCircuitRelayListenAddresses.
  destruct (selectMost addrs) as [a|e0].
  - split.
    + intros e. split; discriminate.
    + intros extAddr multiaddr H. injection H as <- <-.
      split; [reflexivity|]. cbn [fst app]. split; [reflexivity|].
      rewrite length_app.
      pose proof (listen_loops_length addrs [] []) as Hlen.
      simpl in Hlen. exact Hlen.
  - split.
    + intros e. split; intros H; injection H as ->; reflexivity.
    + intros extAddr multiaddr H. discriminate.
Qed.

(** X20.  The listen address selections never return an error.  A
    multiaddress is in the wss selection exactly when it is the
    decapsulation of an input that has no circuit component and has
    dns4, wss and p2p components; it is in the circuit relay selection
    exactly when it is the first part, up to the circuit component, of
    an input that has one. *)
Theorem listen_address_selections :
  forall (addresses : list Multiaddr) (x : Multiaddr),
    snd (selectWSS addresses) = None /\
    snd (selectCircuit addresses) = None /\
    (In x (fst (selectWSS addresses)) <->
     exists addr,
       In addr addresses /\
       snd (ValueForProtocol addr P_CIRCUIT) <> None /\
       snd (ValueForProtocol addr P_DNS4) = None /\
       snd (ValueForProtocol addr P_WSS) = None /\
       decapsulateP2P Multiaddr ValueForProtocol NewMultiaddr Decapsulate addr
       = inl x) /\
    (In x (fst (selectCircuit addresses)) <->
     exists addr,
       In addr addresses /\
       snd (ValueForProtocol addr P_CIRCUIT) = None /\
       x = SplitFunc_circuit addr).
Proof.
  intros addresses x.
  split; [reflexivity|]. split; [reflexivity|].
  unfold selectWSSListenAddresses, selectCircuitRelayListenAddresses.
  cbn [fst]. split.
  - assert (H : forall acc,
               In x (wss_loop addresses acc) <->
               In x acc \/
               exists addr,
                 In addr addresses /\
                 snd (ValueForProtocol addr P_CIRCUIT) <> None /\
                 snd (ValueForProtocol addr P_DNS4) = None /\
                 snd (ValueForProtocol addr P_WSS) = None /\
                 decapsulateP2P Multiaddr ValueForProtocol NewMultiaddr
                   Decapsulate addr = inl x).
    { induction addresses as [|addr rest IH]; intros acc.
      - simpl. split; [auto|]. intros [H|[addr [[] _]]]. exact H.
      - cbn [selectWSSListenAddresses_loop].
        destruct (snd (ValueForProtocol addr P_CIRCUIT)) as [e1|] eqn:E1.
        + destruct (snd (ValueForProtocol addr P_DNS4)) as [e2|] eqn:E2.
          * rewrite IH. split.
            -- intros [H|[y [Hy Hc]]]; [left; exact H|].
               right. exists y. split; [right; exact Hy|exact Hc].
            -- intros [H|[y [[<-|Hy] Hc]]]; [left; exact H | |].
               ++ destruct Hc as (_ & Hd & _). congruence.
               ++ right. exists y. split; assumption.
          * destruct (snd (ValueForProtocol addr P_WSS)) as [e3|] eqn:E3.
            -- rewrite IH. split.
               ++ intros [H|[y [Hy Hc]]]; [left; exact H|].
                  right. exists y. split; [right; exact Hy|exact Hc].
               ++ intros [H|[y [[<-|Hy] Hc]]]; [left; exact H | |].
                  ** destruct Hc as (_ & _ & Hw & _). congruence.
                  ** right. exists y. split; assumption.
            -- destruct (decapsulateP2P Multiaddr ValueForProtocol
                           NewMultiaddr Decapsulate addr) as [m|e4] eqn:E4.
               ++ rewrite IH, in_app_iff. simpl. split.
                  ** intros [[H|[<-|[]]]|[y [Hy Hc]]]; [left; exact H | |].
                     --- right. exists addr. split; [left; reflexivity|].
                         rewrite E1, E2, E3, E4.
                         repeat split; congruence.
                     --- right. exists y. split; [right; exact Hy|exact Hc].
                  ** intros [H|[y [[<-|Hy] Hc]]]; [left; left; exact H | |].
                     --- destruct Hc as (_ & _ & _ & Hd).
                         left. right. left. congruence.
                     --- right. exists y. split; assumption.
               ++ rewrite IH. split.
                  ** intros [H|[y [Hy Hc]]]; [left; exact H|].
                     right. exists y. split; [right; exact Hy|exact Hc].
                  ** intros [H|[y [[<-|Hy] Hc]]]; [left; exact H | |].
                     --- destruct Hc as (_ & _ & _ & Hd). congruence.
                     --- right. exists y. split; assumption.
        + rewrite IH. split.
          * intros [H|[y [Hy Hc]]]; [left; exact H|].
            right. exists y. split; [right; exact Hy|exact Hc].
          * intros [H|[y [[<-|Hy] Hc]]]; [left; exact H | |].
            -- destruct Hc as (Hc & _). rewrite E1 in Hc. contradiction.
            -- right. exists y. split; assumption. }
    rewrite H. simpl. split; [intros [[]|Hx]; exact Hx|auto].
  - assert (H : forall acc,
               In x (circuit_loop addresses acc) <->
               In x acc \/
               exists addr,
                 In addr addresses /\
                 snd (ValueForProtocol addr P_CIRCUIT) = None /\
                 x = SplitFunc_circuit addr).
    { induction addresses as [|addr rest IH]; intros acc.
      - simpl. split; [auto|]. intros [H|[addr [[] _]]]. exact H.
      - cbn [selectCircuitRelayListenAddresses_loop].
        unfold decapsulateCircuitRelayAddr.
        destruct (snd (ValueForProtocol addr P_CIRCUIT)) as [e1|] eqn:E1.
        + rewrite IH. split.
          * intros [H|[y [Hy Hc]]]; [left; exact H|].
            right. exists y. split; [right; exact Hy|exact Hc].
          * intros [H|[y [[<-|Hy] Hc]]]; [left; exact H | |].
            -- destruct Hc as (Hc & _). congruence.
            -- right. exists y. split; assumption.
        + rewrite IH, in_app_iff. simpl. split.
          * intros [[H|[<-|[]]]|[y [Hy Hc]]]; [left; exact H | |].
            -- right. exists addr. split; [left; reflexivity|].
               split; [exact E1|reflexivity].
            -- right. exists y. split; [right; exact Hy|exact Hc].
          * intros [H|[y [[<-|Hy] Hc]]]; [left; left; exact H | |].
            -- destruct Hc as (_ & ->). left. right. left. reflexivity.
            -- right. exists y. split; assumption. }
    rewrite H. simpl. split; [intros [[]|Hx]; exact Hx|auto].
Qed.

End ENRProperties.

(* ================================================================== *)
(** ** Further properties: package [node], updating the local node *)

Lemma byte_of_Z_to_N (x : Z) : Byte.to_N (byte_of_Z x) = Z.to_N (x mod 256).
Proof.
  unfold byte_of_Z.
  destruct (Byte.of_N (Z.to_N (x mod 256))) as [b|] eqn:E.
  - apply Byte.to_of_N. exact E.
  - apply Byte.of_N_None_iff in E.
    pose proof (Z.mod_pos_bound x 256 ltac:(lia)). lia.
Qed.

Lemma byte_of_Z_inj (x y : Z) :
  0 <= x < 256 -> 0 <= y < 256 -> byte_of_Z x = byte_of_Z y -> x = y.
Proof.
  intros Hx Hy H.
  assert (HN : Byte.to_N (byte_of_Z x) = Byte.to_N (byte_of_Z y))
    by (rewrite H; reflexivity).
  rewrite !byte_of_Z_to_N in HN.
  rewrite !Z.mod_small in HN by lia. lia.
Qed.

Lemma PutUint16_BigEndian_inj (x y : Z) :
  0 <= x < 2 ^ 16 -> 0 <= y < 2 ^ 16 ->
  PutUint16_BigEndian x = PutUint16_BigEndian y -> x = y.
Proof.
  intros Hx Hy H. unfold PutUint16_BigEndian in H.
  injection H as Hhi Hlo.
  rewrite !Z.shiftr_div_pow2 in Hhi by lia.
  assert (Hxh : 0 <= x / 2 ^ 8 < 256)
    by (split; [apply Z.div_pos; lia | apply Z.div_lt_upper_bound; lia]).
  assert (Hyh : 0 <= y / 2 ^ 8 < 256)
    by (split; [apply Z.div_pos; lia | apply Z.div_lt_upper_bound; lia]).
  apply byte_of_Z_inj in Hhi; [|assumption|assumption].
  assert (Hl : Byte.to_N (byte_of_Z x) = Byte.to_N (byte_of_Z y))
    by (rewrite Hlo; reflexivity).
  rewrite !byte_of_Z_to_N in Hl.
  assert (Hm : x mod 256 = y mod 256).
  { pose proof (Z.mod_pos_bound x 256 ltac:(lia)).
    pose proof (Z.mod_pos_bound y 256 ltac:(lia)). lia. }
  rewrite (Z.div_mod x 256), (Z.div_mod y 256) by lia.
  change (2 ^ 8) with 256 in Hhi. rewrite Hhi, Hm. reflexivity.
Qed.

Lemma app_inj_length {A : Type} (a b c d : list A) :
  length a = length b -> a ++ c = b ++ d -> a = b /\ c = d.
Proof.
  revert b. induction a as [|x a IH]; intros [|y b] Hlen H;
    simpl in *; try discriminate.
  - split; [reflexivity|exact H].
  - injection H as -> H. injection Hlen as Hlen.
    destruct (IH b Hlen H) as [-> ->]. split; reflexivity.
Qed.

Section LocalNodeProperties.

Variable Multiaddr : Type.
Variable ValueForProtocol : Multiaddr -> ma_Protocol -> string * option error.
Variable Bytes : Multiaddr -> list byte.
Variable NewMultiaddr : string -> Multiaddr * option error.
Variable Decapsulate : Multiaddr -> Multiaddr -> Multiaddr.
Variable SplitFunc_circuit : Multiaddr -> Multiaddr.
Variable ResolveIPAddr : string -> string -> string * option error.
Variable Atoi : string -> Z * option error.
Variable ParseIP : string -> net_IP.
Variable IsPrivate : net_IP -> bool.
Variable IsLoopback : net_IP -> bool.
Variable IsUnspecified : net_IP -> bool.
Variable To4 : net_IP -> net_IP.
Variable To16 : net_IP -> net_IP.

Local Abbreviation fieldRaw := (fieldRaw_loop Multiaddr Bytes).
Local Abbreviation update :=
  (updateLocalNode Multiaddr Bytes IsUnspecified To4 To16).
Local Abbreviation selectMost :=
  (selectMostExternalAddress Multiaddr ValueForProtocol ResolveIPAddr Atoi
     ParseIP IsPrivate IsLoopback IsUnspecified).
Local Abbreviation setup :=
  (setupENR Multiaddr ValueForProtocol Bytes NewMultiaddr Decapsulate
     SplitFunc_circuit ResolveIPAddr Atoi ParseIP IsPrivate IsLoopback
     IsUnspecified To4 To16).

Lemma fieldRaw_loop_concat (multiaddrs : list Multiaddr) (acc : list byte) :
  fieldRaw multiaddrs acc = acc ++ concat (map (field_entry Bytes) multiaddrs).
Proof.
  revert acc. induction multiaddrs as [|addr rest IH]; intros acc.
  - simpl. rewrite app_nil_r. reflexivity.
  - cbn [fieldRaw_loop map concat]. rewrite IH. unfold field_entry.
    rewrite <- !app_assoc. reflexivity.
Qed.

Lemma field_entries_inj (l1 l2 : list Multiaddr) :
  Forall (fun addr => Z.of_nat (length (Bytes addr)) < 2 ^ 16) l1 ->
  Forall (fun addr => Z.of_nat (length (Bytes addr)) < 2 ^ 16) l2 ->
  concat (map (field_entry Bytes) l1) = concat (map (field_entry Bytes) l2) ->
  map Bytes l1 = map Bytes l2.
Proof.
  revert l2. induction l1 as [|a l1 IH]; intros [|b l2] H1 H2 H.
  - reflexivity.
  - discriminate.
  - discriminate.
  - inversion H1 as [|a' l1' Ha H1']; subst.
    inversion H2 as [|b' l2' Hb H2']; subst.
    cbn [map concat] in H. unfold field_entry at 1 3 in H.
    rewrite <- !app_assoc in H.
    destruct (app_inj_length
                (PutUint16_BigEndian (uint16 (Z.of_nat (length (Bytes a)))))
                (PutUint16_BigEndian (uint16 (Z.of_nat (length (Bytes b)))))
                _ _ eq_refl H) as [Hsize Hrest].
    apply PutUint16_BigEndian_inj in Hsize;
      [|unfold uint16; apply Z.mod_pos_bound; lia
       |unfold uint16; apply Z.mod_pos_bound; lia].
    unfold uint16 in Hsize. rewrite !Z.mod_small in Hsize by lia.
    assert (Hlen : length (Bytes a) = length (Bytes b)) by lia.
    destruct (app_inj_length _ _ _ _ Hlen Hrest) as [Hbytes Htail].
    cbn [map]. rewrite Hbytes. f_equal. apply IH; assumption.
Qed.

Lemma field_entry_layout (addr : Multiaddr) :
  exists hi lo,
    field_entry Bytes addr = hi :: lo :: Bytes addr /\
    Z.of_N (Byte.to_N hi)
    = (Z.of_nat (length (Bytes addr)) mod 2 ^ 16) / 2 ^ 8 /\
    Z.of_N (Byte.to_N lo) = Z.of_nat (length (Bytes addr)) mod 2 ^ 8.
Proof.
  unfold field_entry, PutUint16_BigEndian, uint16.
  set (u := Z.of_nat (length (Bytes addr)) mod 2 ^ 16).
  assert (Hu : 0 <= u < 2 ^ 16) by (apply Z.mod_pos_bound; lia).
  exists (byte_of_Z (Z.shiftr u 8)), (byte_of_Z u).
  split; [reflexivity|]. rewrite !byte_of_Z_to_N. split.
  - rewrite Z.shiftr_div_pow2 by lia.
    assert (Hhi : 0 <= u / 2 ^ 8 < 256)
      by (split; [apply Z.div_pos; lia | apply Z.div_lt_upper_bound; lia]).
    rewrite Z.mod_small by exact Hhi. apply Z2N.id. lia.
  - rewrite Z2N.id by (apply Z.mod_pos_bound; lia).
    change 256 with (2 ^ 8). unfold u.
    apply Z.mod_mod_divide. exists (2 ^ 8). reflexivity.
Qed.

(** X21.  The multiaddress field built by [updateLocalNode] is, for
    each address in order, its length on two bytes, the high byte
    first, followed by its bytes (the length is taken modulo 65536); so
    its size is the sum of the lengths plus two per address, and it is
    empty only for no address.  When every address is shorter than
    65536 bytes the field determines the addresses: two lists with the
    same field have the same bytes, address by address. *)
Theorem multiaddr_field_unambiguous :
  forall l1 l2 : list Multiaddr,
    (exists entries : list (list byte),
        fieldRaw_loop Multiaddr Bytes l1 [] = concat entries /\
        Forall2
          (fun addr entry =>
             exists hi lo,
               entry = hi :: lo :: Bytes addr /\
               Z.of_N (Byte.to_N hi)
               = (Z.of_nat (length (Bytes addr)) mod 2 ^ 16) / 2 ^ 8 /\
               Z.of_N (Byte.to_N lo)
               = Z.of_nat (length (Bytes addr)) mod 2 ^ 8)
          l1 entries) /\
    length (fieldRaw_loop Multiaddr Bytes l1 [])
    = fold_right (fun addr n => (2 + length (Bytes addr) + n)%nat) 0%nat l1 /\
    (fieldRaw_loop Multiaddr Bytes l1 [] = [] <-> l1 = []) /\
    (Forall (fun addr => Z.of_nat (length (Bytes addr)) < 2 ^ 16) l1 ->
     Forall (fun addr => Z.of_nat (length (Bytes addr)) < 2 ^ 16) l2 ->
     fieldRaw_loop Multiaddr Bytes l1 [] = fieldRaw_loop Multiaddr Bytes l2 [] ->
     map Bytes l1 = map Bytes l2).
Proof.
  intros l1 l2. rewrite !fieldRaw_loop_concat. cbn [app].
  split; [|split; [|split]].
  - exists (map (field_entry Bytes) l1). split; [reflexivity|].
    induction l1 as [|a l1 IH]; [constructor|].
    cbn [map]. constructor; [apply field_entry_layout|exact IH].
  - induction l1 as [|a l1 IH]; [reflexivity|].
    cbn [map concat fold_right]. rewrite length_app, IH.
    unfold field_entry. rewrite length_app. simpl. lia.
  - destruct l1 as [|a l1]; [split; reflexivity|].
    split; intros H; discriminate.
  - apply field_entries_inj.
Qed.

(** X22.  [updateLocalNode] checks the UDP port after it has changed
    the node: with a port above 65535 it returns the error "invalid udp
    port number", having already set the fallback UDP port (to the
    port refused), the waku field and the fallback IP 127.0.0.1, and
    nothing else.  With a port up to 65535 it returns no error, after
    the same three calls and the ones that follow. *)
Theorem updateLocalNode_udp_port :
  forall (multiaddrs : list Multiaddr) (ipAddr : option net_TCPAddr)
         (udpPort : Z) (wakuFlags : byte) (advertiseAddr : option net_IP)
         (shouldAutoUpdate : bool) (ops : list LocalNodeOp),
    (MaxUint16 < udpPort ->
     update multiaddrs ipAddr udpPort wakuFlags advertiseAddr shouldAutoUpdate
       ops
     = Returns (Some (errors_New "invalid udp port number"%string),
                ops ++ [SetFallbackUDP (to_int udpPort);
                        Set_ (WithEntry_WakuENRField wakuFlags);
                        SetFallbackIP [x7f; x00; x00; x01]])) /\
    (udpPort <= MaxUint16 ->
     forall r ops',
       update multiaddrs ipAddr udpPort wakuFlags advertiseAddr
         shouldAutoUpdate ops = Returns (r, ops') ->
       r = None /\
       exists more,
         ops' = ops ++ [SetFallbackUDP (to_int udpPort);
                        Set_ (WithEntry_WakuENRField wakuFlags);
                        SetFallbackIP [x7f; x00; x00; x01]] ++ more).
Proof.
  intros multiaddrs ipAddr udpPort wakuFlags advertiseAddr shouldAutoUpdate ops.
  split.
  - intros Hport. unfold updateLocalNode, bind, localnode_do, ret.
    destruct (Z.ltb_spec MaxUint16 udpPort); [|lia].
    rewrite <- !app_assoc. reflexivity.
  - intros Hport r ops'. unfold updateLocalNode, bind, localnode_do, ret.
    destruct (Z.ltb_spec MaxUint16 udpPort); [lia|].
    destruct advertiseAddr as [adv|]; destruct ipAddr as [a|];
      try discriminate.
    + destruct (negb (Z.of_nat (length (fieldRaw multiaddrs [])) =? 0));
        intros Hr; injection Hr as <- <-; (split; [reflexivity|]);
        eexists; rewrite <- !app_assoc; cbn [app]; reflexivity.
    + destruct (negb shouldAutoUpdate).
      * destruct (negb (Z.of_nat (length (fieldRaw multiaddrs [])) =? 0));
          intros Hr; injection Hr as <- <-; (split; [reflexivity|]);
          eexists; rewrite <- !app_assoc; cbn [app]; reflexivity.
      * cbv zeta.
        destruct (negb (is_nil (To4 (IP a)))
                  && negb (IsUnspecified (To4 (IP a))));
          destruct (negb (is_nil (To16 (IP a)))
                    && negb (IsUnspecified (To16 (IP a))));
          destruct (negb (Z.of_nat (length (fieldRaw multiaddrs [])) =? 0));
          intros Hr; injection Hr as <- <-; (split; [reflexivity|]);
          eexists; rewrite <- !app_assoc; cbn [app]; reflexivity.
Qed.

(** X23.  With a nil [ipAddr], [updateLocalNode] panics exactly when
    the UDP port is at most 65535: a port above is refused, with the
    error "invalid udp port number", before the address is read. *)
Theorem updateLocalNode_nil_address :
  forall (multiaddrs : list Multiaddr) (udpPort : Z) (wakuFlags : byte)
         (advertiseAddr : option net_IP) (shouldAutoUpdate : bool)
         (ops : list LocalNodeOp),
    (update multiaddrs None udpPort wakuFlags advertiseAddr shouldAutoUpdate
       ops = Panics <-> udpPort <= MaxUint16) /\
    (MaxUint16 < udpPort ->
     exists ops',
       update multiaddrs None udpPort wakuFlags advertiseAddr shouldAutoUpdate
         ops
       = Returns (Some (errors_New "invalid udp port number"%string), ops')).
Proof.
  intros multiaddrs udpPort wakuFlags advertiseAddr shouldAutoUpdate ops.
  unfold updateLocalNode, bind, localnode_do, ret. split.
  - destruct (Z.ltb_spec MaxUint16 udpPort).
    + split; [discriminate|lia].
    + destruct advertiseAddr; (split; [intros _; lia|reflexivity]).
  - intros Hport. destruct (Z.ltb_spec MaxUint16 udpPort); [|lia].
    eexists. reflexivity.
Qed.

Lemma fieldRaw_nonempty (multiaddrs : list Multiaddr) :
  multiaddrs <> [] ->
  negb (Z.of_nat (length (fieldRaw multiaddrs [])) =? 0) = true
  /\ fieldRaw multiaddrs [] <> [].
Proof.
  intros H. destruct multiaddrs as [|a rest]; [contradiction|].
  rewrite fieldRaw_loop_concat. cbn [app map concat]. unfold field_entry.
  split; [|discriminate].
  rewrite !length_app. simpl length.
  destruct (Z.eqb_spec
              (Z.of_nat (2 + length (Bytes a)
                         + length (concat (map (field_entry Bytes) rest)))) 0);
    [lia|reflexivity].
Qed.

Lemma updateLocalNode_returns (multiaddrs : list Multiaddr) (a : net_TCPAddr)
    (udpPort : Z) (wakuFlags : byte) (advertiseAddr : option net_IP)
    (shouldAutoUpdate : bool) (ops : list LocalNodeOp) :
  exists ops',
    update multiaddrs (Some a) udpPort wakuFlags advertiseAddr
      shouldAutoUpdate ops
    = Returns (if MaxUint16 <? udpPort
               then Some (errors_New "invalid udp port number"%string)
               else None, ops').
Proof.
  unfold updateLocalNode, bind, localnode_do, ret.
  destruct (MaxUint16 <? udpPort); [eexists; reflexivity|].
  destruct advertiseAddr as [adv|].
  - destruct (negb (Z.of_nat (length (fieldRaw multiaddrs [])) =? 0));
      eexists; reflexivity.
  - destruct (negb shouldAutoUpdate).
    + destruct (negb (Z.of_nat (length (fieldRaw multiaddrs [])) =? 0));
        eexists; reflexivity.
    + cbv zeta.
      destruct (negb (is_nil (To4 (IP a)))
                && negb (IsUnspecified (To4 (IP a))));
        destruct (negb (is_nil (To16 (IP a)))
                  && negb (IsUnspecified (To16 (IP a))));
        destruct (negb (Z.of_nat (length (fieldRaw multiaddrs [])) =? 0));
        eexists; reflexivity.
Qed.

(** X24.  When [updateLocalNode] returns no error: if multiaddresses
    were given, the last call on the node sets the multiaddress field,
    which is not empty; if none was given, no call sets or deletes the
    multiaddress field, so a field set earlier stays as it was. *)
Theorem updateLocalNode_multiaddr_entry :
  forall (multiaddrs : list Multiaddr) (ipAddr : option net_TCPAddr)
         (udpPort : Z) (wakuFlags : byte) (advertiseAddr : option net_IP)
         (shouldAutoUpdate : bool) (ops ops' : list LocalNodeOp),
    update multiaddrs ipAddr udpPort wakuFlags advertiseAddr shouldAutoUpdate
      ops = Returns (None, ops') ->
    (multiaddrs <> [] ->
     fieldRaw multiaddrs [] <> [] /\
     exists before,
       ops' = before
              ++ [Set_ (WithEntry_MultiaddrENRField (fieldRaw multiaddrs []))]) /\
    (multiaddrs = [] ->
     exists added,
       ops' = ops ++ added /\
       forall raw,
         ~ In (Set_ (WithEntry_MultiaddrENRField raw)) added /\
         ~ In (Delete (WithEntry_MultiaddrENRField raw)) added).
Proof.
  intros multiaddrs ipAddr udpPort wakuFlags advertiseAddr shouldAutoUpdate
         ops ops' H.
  split.
  - intros Hne. destruct (fieldRaw_nonempty multiaddrs Hne) as [Hset Hfield].
    split; [exact Hfield|].
    revert H. unfold updateLocalNode, bind, localnode_do, ret.
    rewrite Hset.
    destruct (MaxUint16 <? udpPort); [discriminate|].
    destruct advertiseAddr as [adv|]; destruct ipAddr as [a|];
      try discriminate.
    + intros H. injection H as <-. eexists. reflexivity.
    + destruct (negb shouldAutoUpdate).
      * intros H. injection H as <-. eexists. reflexivity.
      * cbv zeta.
        destruct (negb (is_nil (To4 (IP a)))
                  && negb (IsUnspecified (To4 (IP a))));
          destruct (negb (is_nil (To16 (IP a)))
                    && negb (IsUnspecified (To16 (IP a))));
          intros H; injection H as <-; eexists; reflexivity.
  - intros ->. revert H. unfold updateLocalNode, bind, localnode_do, ret.
    cbn [fieldRaw_loop length Z.of_nat Z.eqb negb].
    destruct (MaxUint16 <? udpPort); [discriminate|].
    destruct advertiseAddr as [adv|]; destruct ipAddr as [a|];
      try discriminate.
    + intros H. injection H as <-. eexists.
      split; [rewrite <- !app_assoc; cbn [app]; reflexivity|].
      intros raw. split; intros Hin; simpl in Hin;
        repeat (destruct Hin as [Hin|Hin]; [discriminate|]); exact Hin.
    + destruct (negb shouldAutoUpdate).
      * intros H. injection H as <-. eexists.
        split; [rewrite <- !app_assoc; cbn [app]; reflexivity|].
        intros raw. split; intros Hin; simpl in Hin;
          repeat (destruct Hin as [Hin|Hin]; [discriminate|]); exact Hin.
      * cbv zeta.
        destruct (negb (is_nil (To4 (IP a)))
                  && negb (IsUnspecified (To4 (IP a))));
          destruct (negb (is_nil (To16 (IP a)))
                    && negb (IsUnspecified (To16 (IP a))));
          intros H; injection H as <-; eexists;
          (split; [rewrite <- !app_assoc; cbn [app]; reflexivity|]);
          intros raw; split; intros Hin; simpl in Hin;
          repeat (destruct Hin as [Hin|Hin]; [discriminate|]); exact Hin.
Qed.

(** X25.  [setupENR]: when no address can be selected it returns the
    error of the selection and makes no call on the local node; when
    one is selected and the UDP port is above 65535 it returns the
    error "invalid udp port number"; when one is selected and the port
    is at most 65535, what it returns, if it returns, is no error. *)
Theorem setupENR_outcome :
  forall (addrs : list Multiaddr) (udpPort : Z) (wakuFlag : byte)
         (advertiseAddr : option net_IP) (discV5autoUpdate : bool)
         (ops : list LocalNodeOp),
    (forall e,
        selectMost addrs = inr e ->
        setup addrs udpPort wakuFlag advertiseAddr discV5autoUpdate ops
        = Returns (Some e, ops)) /\
    (forall a,
        selectMost addrs = inl a ->
        MaxUint16 < udpPort ->
        exists ops',
          setup addrs udpPort wakuFlag advertiseAddr discV5autoUpdate ops
          = Returns (Some (errors_New "invalid udp port number"%string), ops')) /\
    (forall a r ops',
        selectMost addrs = inl a ->
        udpPort <= MaxUint16 ->
        setup addrs udpPort wakuFlag advertiseAddr discV5autoUpdate ops
        = Returns (r, ops') ->
        r = None).
Proof.
  intros addrs udpPort wakuFlag advertiseAddr discV5autoUpdate ops.
  unfold setupENR, getENRAddresses, selectWSSListenAddresses,
    selectCircuitRelayListenAddresses.
  split; [|split].
  - intros e He. rewrite He. reflexivity.
  - intros a Ha Hport. rewrite Ha. unfold bind.
    destruct (updateLocalNode_returns
                (([] ++ selectWSSListenAddresses_loop Multiaddr
                          ValueForProtocol NewMultiaddr Decapsulate addrs [])
                 ++ selectCircuitRelayListenAddresses_loop Multiaddr
                      ValueForProtocol SplitFunc_circuit addrs [])
                a udpPort wakuFlag advertiseAddr discV5autoUpdate ops)
      as [ops' Hrun].
    rewrite Hrun.
    destruct (Z.ltb_spec MaxUint16 udpPort); [|lia].
    exists ops'. reflexivity.
  - intros a r ops' Ha Hport. rewrite Ha. unfold bind.
    destruct (updateLocalNode_returns
                (([] ++ selectWSSListenAddresses_loop Multiaddr
                          ValueForProtocol NewMultiaddr Decapsulate addrs [])
                 ++ selectCircuitRelayListenAddresses_loop Multiaddr
                      ValueForProtocol SplitFunc_circuit addrs [])
                a udpPort wakuFlag advertiseAddr discV5autoUpdate ops)
      as [ops1 Hrun].
    rewrite Hrun.
    destruct (Z.ltb_spec MaxUint16 udpPort); [lia|].
    intros Hr. injection Hr as <- _. reflexivity.
Qed.

End LocalNodeProperties.

(* ================================================================== *)
(** ** Runs of the address functions on the bench *)

Lemma extractIPAddressForENR_accepts_witness :
  extractIPAddressForENR BenchAddr bench_ValueForProtocol bench_ResolveIPAddr
    bench_Atoi bench_ParseIP bench_addr_private
  = inl {| IP := [x0a; x00; x00; x07]; Port := 60001 |}
  /\ exists dns4 ipStr,
       bench_ValueForProtocol bench_addr_private P_DNS4 = (dns4, None) /\
       bench_ResolveIPAddr "ip4" dns4 = (ipStr, None) /\
       [x0a; x00; x00; x07] = bench_ParseIP ipStr.
Proof.
  split; [reflexivity|].
  destruct (extractIPAddressForENR_accepts BenchAddr bench_ValueForProtocol
              bench_ResolveIPAddr bench_Atoi bench_ParseIP bench_addr_private
              {| IP := [x0a; x00; x00; x07]; Port := 60001 |} eq_refl)
    as (_ & _ & _ & _ & [Hdns|[Hno _]]).
  - exact Hdns.
  - exfalso. apply Hno. reflexivity.
Defined.

Lemma selectMostExternalAddress_preference_witness :
  selectMostExternalAddress BenchAddr bench_ValueForProtocol
    bench_ResolveIPAddr bench_Atoi bench_ParseIP bench_IsPrivate
    bench_IsLoopback bench_IsUnspecified bench_addrs
  = inl {| IP := [x08; x08; x08; x08]; Port := 60002 |}
  /\ exists addr,
       In addr bench_addrs /\
       extractIPAddressForENR BenchAddr bench_ValueForProtocol
         bench_ResolveIPAddr bench_Atoi bench_ParseIP addr
       = inl {| IP := [x08; x08; x08; x08]; Port := 60002 |}.
Proof.
  split; [reflexivity|].
  exact (proj1 (selectMostExternalAddress_preference BenchAddr
                  bench_ValueForProtocol bench_ResolveIPAddr bench_Atoi
                  bench_ParseIP bench_IsPrivate bench_IsLoopback
                  bench_IsUnspecified bench_addrs
                  {| IP := [x08; x08; x08; x08]; Port := 60002 |} eq_refl)).
Defined.

Lemma selectMostExternalAddress_fails_witness :
  selectMostExternalAddress BenchAddr bench_ValueForProtocol
    bench_ResolveIPAddr bench_Atoi bench_ParseIP bench_IsPrivate
    bench_IsLoopback bench_IsUnspecified
    [bench_addr_wss; [(P_IP4, "0.0.0.0"%string); (P_TCP, "1"%string)]]
  = inr (errors_New "could not obtain ip address"%string).
Proof.
  apply (proj2 (selectMostExternalAddress_fails BenchAddr
                  bench_ValueForProtocol bench_ResolveIPAddr bench_Atoi
                  bench_ParseIP bench_IsPrivate bench_IsLoopback
                  bench_IsUnspecified _ _)).
  split; [reflexivity|].
  intros addr b [<-|[<-|[]]] Hb.
  - discriminate.
  - injection Hb as <-. repeat split.
Defined.

Lemma updateLocalNode_multiaddr_entry_witness :
  exists ops',
    updateLocalNode BenchAddr bench_addr_Bytes bench_IsUnspecified bench_To4
      bench_To16 [bench_addr_wss]
      (Some {| IP := [x08; x08; x08; x08]; Port := 60002 |})
      9000 x01 None false []
    = Returns (None, ops')
    /\ exists before,
         ops' = before
                ++ [Set_ (WithEntry_MultiaddrENRField
                            (fieldRaw_loop BenchAddr bench_addr_Bytes
                               [bench_addr_wss] []))].
Proof.
  eexists. split; [vm_compute; reflexivity|].
  match goal with
  | |- exists before, ?o = _ =>
      assert (Hrun :
                updateLocalNode BenchAddr bench_addr_Bytes bench_IsUnspecified
                  bench_To4 bench_To16 [bench_addr_wss]
                  (Some {| IP := [x08; x08; x08; x08]; Port := 60002 |})
                  9000 x01 None false []
                = Returns (None, o)) by (vm_compute; reflexivity);
      destruct (proj1 (updateLocalNode_multiaddr_entry BenchAddr
                         bench_addr_Bytes bench_IsUnspecified bench_To4
                         bench_To16 [bench_addr_wss]
                         (Some {| IP := [x08; x08; x08; x08]; Port := 60002 |})
                         9000 x01 None false [] o Hrun))
        as [_ Hb]; [discriminate | exact Hb]
  end.
Defined.

(** A UDP port above 65535 is refused after the node was changed. *)
Example bench_udp_port_refused :
  updateLocalNode BenchAddr bench_addr_Bytes bench_IsUnspecified bench_To4
    bench_To16 [] None 70000 x01 None true []
  = Returns (Some (errors_New "invalid udp port number"%string),
             [SetFallbackUDP 70000; Set_ (WithEntry_WakuENRField x01);
              SetFallbackIP [x7f; x00; x00; x01]]).
Proof. reflexivity. Qed.

(** The addresses of the bench: the external one is selected; the wss
    and the circuit relay address are listed, each once. *)
Example bench_getENRAddresses :
  getENRAddresses BenchAddr bench_ValueForProtocol bench_NewMultiaddr
    bench_Decapsulate bench_SplitFunc_circuit bench_ResolveIPAddr bench_Atoi
    bench_ParseIP bench_IsPrivate bench_IsLoopback bench_IsUnspecified
    bench_addrs
  = inl ({| IP := [x08; x08; x08; x08]; Port := 60002 |},
         [[(P_DNS4, "node.example"%string); (P_TCP, "443"%string);
           (P_WSS, ""%string)];
          [(P_IP4, "8.8.8.8"%string); (P_TCP, "60003"%string);
           (P_P2P, "relay"%string)]]).
Proof. reflexivity. Qed.
